(** * The multi-objective travelling salesman problem of [notebooks/NSGA-II.ipynb]

    A shallow embedding of the class [MOTSP] (constructor, [total_distance],
    [_evaluate]) and of the notions of the NSGA-II description that the
    properties below talk about. *)

From stdpp Require Import base decidable option list numbers sorting strings gmap.

Local Open Scope Z_scope.

(** ** Python exceptions and the error monad

    A call either returns a value or raises.  Only the two exceptions that
    the numpy calls of the class can raise are needed. *)

Inductive exn : Type :=
  | ValueError   (* negative dimension, shape mismatch, empty concatenation *)
  | IndexError.  (* index out of bounds *)

Definition py (A : Type) : Type := (exn + A)%type.

Definition ret {A} (a : A) : py A := inr a.
Definition raise {A} (e : exn) : py A := inl e.
Definition bind {A B} (m : py A) (k : A -> py B) : py B :=
  match m with
  | inl e => inl e
  | inr a => k a
  end.

Notation "'let*' x ':=' m 'in' k" := (bind m (fun x => k))
  (at level 10, x name, m at level 100, k at level 200).

(** A [for] loop over a list of indices that threads an accumulator and stops
    at the first exception. *)
Fixpoint foldM {A B} (f : A -> B -> py A) (l : list B) (a : A) : py A :=
  match l with
  | [] => ret a
  | b :: l' => let* a' := f a b in foldM f l' a'
  end.

(** ** Scalars

    The entries of the distance matrices are numpy [float64] values.  The
    development is stated over any carrier with an addition and a comparison
    that obey the three laws below; they hold of IEEE-754 doubles other than
    NaN (addition is commutative and rounding is monotone) as well as of exact
    numbers, and nothing else about the arithmetic is used. *)

Class Scalar (V : Type) : Type := {
  vzero : V;
  vadd : V -> V -> V;
  vleb : V -> V -> bool;
  of_Z : Z -> V;
  vadd_comm : forall a b, vadd a b = vadd b a;
  vleb_zero : vleb vzero vzero = true;
  vadd_nonneg : forall a b,
    vleb vzero a = true -> vleb vzero b = true -> vleb vzero (vadd a b) = true
}.

Definition vltb `{Scalar V} (a b : V) : bool := vleb a b && negb (vleb b a).

(** Exact integer weights: the instance used to run the definitions. *)
#[export] Instance Z_Scalar : Scalar Z.
Proof.
  refine {| vzero := 0; vadd := Z.add; vleb := Z.leb; of_Z := fun z => z |}.
  - intros; lia.
  - reflexivity.
  - intros a b Ha Hb. apply Z.leb_le. apply Z.leb_le in Ha, Hb. lia.
Defined.

(** ** numpy arrays and the calls the class makes *)

(** A two-dimensional array, as the list of its rows. *)
Abbreviation matrix V := (list (list V)).

(** The process-wide generator behind [np.random], seen as the stream of
    doubles it is going to yield from its present state on. *)
Abbreviation rng V := (nat -> V).

Section Numpy.
Context {V : Type} `{Scalar V}.

(** [np.random.rand(n, n)]: [n * n] draws laid out row by row; the generator
    moves on by as many. *)
Definition rand (n : nat) (g : rng V) : matrix V * rng V :=
  ((fun i => (fun j => g (i * n + j)%nat) <$> seq 0 n) <$> seq 0 n,
   fun k => g (n * n + k)%nat).

(** [np.tril(d, k)]: entries above the [k]-th diagonal become zero. *)
Definition tril (k : Z) (d : matrix V) : matrix V :=
  imap (fun i row =>
          imap (fun j v => if Z.of_nat j <=? Z.of_nat i + k then v else vzero) row) d.

(** [d.T] *)
Definition transpose (d : matrix V) : matrix V :=
  (fun j => (fun row => nth j row vzero) <$> d) <$> seq 0 (length (hd [] d)).

(** [a + b] on two arrays of one shape *)
Definition madd (a b : matrix V) : matrix V := zip_with (zip_with vadd) a b.

(** [d[np.diag_indices(n)] = 0] *)
Definition zero_diag (d : matrix V) : matrix V :=
  imap (fun i row => <[i := vzero]> row) d.

(** An index of an axis of length [len]: negative indices count from the end,
    anything outside [-len, len) raises. *)
Definition axis_index (len : nat) (a : Z) : py nat :=
  if (0 <=? a) && (a <? Z.of_nat len) then ret (Z.to_nat a)
  else if (- Z.of_nat len <=? a) && (a <? 0) then ret (Z.to_nat (a + Z.of_nat len))
  else raise IndexError.

(** [l[i]] for an index known to the caller as a position *)
Definition getitem {A} (l : list A) (i : nat) : py A :=
  match l !! i with
  | Some a => ret a
  | None => raise IndexError
  end.

(** [d[a, b]] *)
Definition getitem2 (d : matrix V) (a b : Z) : py V :=
  let* i := axis_index (length d) a in
  let* row := getitem d i in
  let* j := axis_index (length row) b in
  getitem row j.

(** [np.arange(n)] *)
Definition arange (n : Z) : list Z := Z.of_nat <$> seq 0 (Z.to_nat n).

(** [np.sort(x)]: a sorted copy; the argument is left as it is. *)
Definition np_sort (x : list Z) : list Z := merge_sort Z.le x.

(** [a != b] on one-dimensional integer arrays, with numpy's broadcasting of
    a length-one operand; two lengths that do not broadcast raise (numpy
    before 1.25 answered them with the single value [True] and a warning;
    on a route of length [n_cities] the two arrays of [_evaluate] have one
    length). *)
Definition not_equal (a b : list Z) : py (list bool) :=
  if decide (length a = length b) then ret (zip_with (fun u v => negb (u =? v)) a b)
  else match a, b with
       | [u], _ => ret ((fun v => negb (u =? v)) <$> b)
       | _, [v] => ret ((fun u => negb (u =? v)) <$> a)
       | _, _ => raise ValueError
       end.

(** [np.sum] of a boolean array: how many entries are [True]. *)
Definition np_sum (bs : list bool) : Z := Z.of_nat (length (List.filter id bs)).

(** [np.column_stack(fits)] of a one-dimensional array: every entry becomes
    a 1 x 1 block and the blocks are joined along the second axis, which
    needs at least one block. *)
Definition column_stack (fits : list V) : py (matrix V) :=
  match fits with
  | [] => raise ValueError
  | _ => ret [fits]
  end.

End Numpy.


(** ** The class [MOTSP] *)

Module MOTSP.
Section Class.
Context {V : Type} `{Scalar V}.

(** The attributes of an instance: the two the class sets itself and the
    five it hands to the constructor of the library's base class, which is
    taken to store them. *)
Record self : Type := {
  n_cities : Z;
  distances : list (matrix V);
  n_var : Z;
  n_obj : Z;
  n_constr : Z;
  xl : list V;
  xu : list V
}.

(** One pass of the constructor's loop body: a random symmetric matrix. *)
Definition symmetric_matrix (d : matrix V) : matrix V :=
  zero_diag (madd (tril 0 d) (transpose (tril (-1) d))).

(** [for i in range(n_obj)]: draw, symmetrise, append. *)
Fixpoint draw_distances (n : nat) (count : nat) (g : rng V) : list (matrix V) * rng V :=
  match count with
  | O => ([], g)
  | S count' =>
      let '(d, g1) := rand n g in
      let '(ds, g2) := draw_distances n count' g1 in
      (symmetric_matrix d :: ds, g2)
  end.

(** [MOTSP(n_cities, n_obj)], run with the generator in state [g].
    [np.zeros] refuses a negative length; [range] of a non-positive count is
    empty.  No other check is made. *)
Definition __init__ (n_cities n_obj : Z) (g : rng V) : py (self * rng V) :=
  if n_cities <? 0 then raise ValueError
  else
    let n := Z.to_nat n_cities in
    let xl := replicate n vzero in
    let xu := replicate n (of_Z (n_cities - 1)) in
    let '(ds, g') := draw_distances n (Z.to_nat n_obj) g in
    ret ({| n_cities := n_cities; distances := ds;
            n_var := n_cities; n_obj := n_obj; n_constr := 1;
            xl := xl; xu := xu |}, g').

(** [total_distance(self, x, d)] *)
Definition total_distance (s : self) (x : list Z) (d : nat) : py V :=
  foldM (fun t i =>
           let* a := getitem x (i - 1) in
           let* b := getitem x i in
           let* m := getitem (distances s) d in
           let* v := getitem2 m a b in
           ret (vadd t v))
        (seq 1 (length x - 1)) vzero.

(** The arrays [_evaluate] stores in [out]. *)
Inductive ndarray : Type :=
  | Float2 (a : matrix V)   (* two-dimensional array of floats *)
  | Int1 (a : list Z).      (* one-dimensional array of integers *)

(** The three objects [_evaluate] holds references to: the instance, the
    individual and the dictionary it answers through. *)
Record frame : Type := {
  this : self;
  x : list Z;
  out : gmap string ndarray
}.

(** The expression of the constraint: minus the number of positions where
    the sorted route differs from [0, 1, ..., n_cities - 1]. *)
Definition constraint (s : self) (x : list Z) : py Z :=
  let* ne := not_equal (arange (n_cities s)) (np_sort x) in
  ret (- np_sum ne).

(** [_evaluate(self, x, out)] *)
Definition _evaluate (f : frame) : py frame :=
  let fits0 := replicate (length (distances (this f))) vzero in
  let* fits := foldM (fun fits i =>
                        let* t := total_distance (this f) (x f) i in
                        ret (<[i := t]> fits))
                     (seq 0 (length (distances (this f)))) fits0 in
  let* c := constraint (this f) (x f) in
  let* F := column_stack fits in
  ret {| this := this f; x := x f;
         out := <["G" := Int1 [c]]> (<["F" := Float2 F]> (out f)) |}.

End Class.
Arguments self V : clear implicits.
Arguments ndarray V : clear implicits.
Arguments frame V : clear implicits.
End MOTSP.

(** Modelled from the spec: the reading of a constraint score, which the
    library applies and the repository does not define: an individual is
    feasible when its score is not positive. *)
Definition feasible (g : Z) : bool := g <=? 0.

(** * The vocabulary of the properties *)

Section Vocabulary.
Context {V : Type} `{Scalar V}.
Implicit Types (d : matrix V) (g : rng V) (x : list Z) (s : MOTSP.self V).

(** An [n] x [n] array. *)
Definition square (n : nat) d : Prop :=
  length d = n /\ Forall (fun row => length row = n) d.

(** The entry at row [i], column [j], when there is one. *)
Definition entry d (i j : nat) : option V :=
  match d !! i with
  | Some row => row !! j
  | None => None
  end.

(** Entry [i, j] equals entry [j, i], for every two cities. *)
Definition symmetric (n : nat) d : Prop :=
  forall i j, (i < n)%nat -> (j < n)%nat ->
    exists v, entry d i j = Some v /\ entry d j i = Some v.

(** Every city is at distance zero from itself. *)
Definition zero_diagonal (n : nat) d : Prop :=
  forall i, (i < n)%nat -> entry d i i = Some vzero.

(** No entry is negative. *)
Definition nonneg_matrix d : Prop :=
  forall i j v, entry d i j = Some v -> vleb vzero v = true.

(** A generator that only yields non-negative values, as [rand] does
    (its draws lie in the interval from 0 inclusive to 1 exclusive). *)
Definition nonneg_rng g : Prop := forall k, vleb vzero (g k) = true.

(** An instance whose matrices are all [n] x [n], for [n] its [n_cities]. *)
Definition well_formed (n : nat) s : Prop :=
  MOTSP.n_cities s = Z.of_nat n /\ Forall (square n) (MOTSP.distances s).

(** [route[k]] *)
Definition route_at x (k : nat) : Z := nth k x 0.

(** [distance[a][b]] for two cities *)
Definition distance d (a b : Z) : V :=
  default vzero (entry d (Z.to_nat a) (Z.to_nat b)).

(** The sum of [f k] for [k = 1 .. n], taken in the order of [k]. *)
Fixpoint big_sum (f : nat -> V) (n : nat) : V :=
  match n with
  | O => vzero
  | S n' => vadd (big_sum f n') (f (S n'))
  end.

(** The cost of the open path along [route]: the sum of
    [distance[route[k-1]][route[k]]] for [k = 1 .. N-1], [N] the length of
    the route. *)
Definition open_path_cost d (route : list Z) : V :=
  big_sum (fun k => distance d (route_at route (k - 1)) (route_at route k))
          (length route - 1).

(** The cost of the closed tour: the open path and the edge back from the
    last city to the first. *)
Definition closed_tour_cost d (route : list Z) : V :=
  vadd (open_path_cost d route)
       (distance d (route_at route (length route - 1)) (route_at route 0)).

(** [fits] holds the objectives of [x]: entry [i] is what
    [total_distance(x, i)] returns, for every matrix of the instance. *)
Definition objectives_of s x (fits : list V) : Prop :=
  Forall2 (fun i t => MOTSP.total_distance s x i = inr t)
          (seq 0 (length (MOTSP.distances s))) fits.

(** The draws that reach the matrices: in each of the [count] blocks of
    [n * n] draws, those of the strict lower triangle. *)
Definition same_draws (n count : nat) g g' : Prop :=
  forall b i j, (b < count)%nat -> (j < i < n)%nat ->
    g (b * (n * n) + (i * n + j))%nat = g' (b * (n * n) + (i * n + j))%nat.

(** The cells of the notebook, in their order.  The problem is constructed
    first, with the process-wide generator in whatever state [g0] the
    process finds it in; [minimize] is called afterwards with the seed.  The
    library is taken as a parameter: [seeded seed] is the state in which its
    seeding puts the generator when [minimize] starts, and [minimize] is a
    function of the problem, of the algorithm and termination objects and of
    that generator. *)
Definition notebook {algorithm termination result : Type}
    (seeded : Z -> rng V)
    (minimize : MOTSP.self V -> algorithm -> termination -> rng V -> result)
    (n_cities n_obj : Z) (alg : algorithm) (term : termination) (seed : Z)
    (g0 : rng V) : py result :=
  let* built := MOTSP.__init__ n_cities n_obj g0 in
  ret (minimize built.1 alg term (seeded seed)).

(** An entry that numpy accepts as an index of an axis of length [n]. *)
Definition valid_index (n : nat) (a : Z) : Prop :=
  - Z.of_nat n <= a < Z.of_nat n.

(** The city that a route entry stands for when it is used as an index:
    numpy counts a negative index from the end of the axis. *)
Definition wrap_city (n : nat) (a : Z) : Z :=
  if a <? 0 then a + Z.of_nat n else a.

(** What the constructor leaves at row [i], column [j] of the matrix of
    objective [b], from the draws of the generator [g]: the draw of block
    [b] at the lower-triangular position of the pair, added to zero, and
    zero on the diagonal. *)
Definition drawn_entry (n : nat) g (b i j : nat) : V :=
  if decide (i = j) then vzero
  else if decide (j < i)%nat then vadd (g (b * (n * n) + (i * n + j))%nat) vzero
  else vadd vzero (g (b * (n * n) + (j * n + i))%nat).

End Vocabulary.

(** ** Non-dominated sets *)

Section NonDominated.
Context {V : Type} `{Scalar V}.

(** Modelled from the spec: the partition into non-dominated fronts is done
    by the library and is not part of the repository.  A member of the
    population is an individual with its objective vector and its constraint
    score; the front is the subset that no member dominates, where a member
    dominates another when its objectives are all at most the other's and one
    is strictly less, feasibility coming first: a feasible member dominates
    every infeasible one, and of two infeasible ones the lower violation
    dominates. *)
Record scored : Type := {
  route : list Z;
  objective_vector : list V;
  constraint_score : Z
}.

(** Modelled from the spec: the library's comparison of two objective
    vectors, all entries at most the other's and one strictly less. *)
Definition pareto_dominates (a b : list V) : bool :=
  forallb (fun uv => vleb uv.1 uv.2) (zip a b) &&
  existsb (fun uv => vltb uv.1 uv.2) (zip a b).

(** Modelled from the spec: the library's domination between two members,
    feasibility first, then violation, then the objectives. *)
Definition dominates (a b : scored) : bool :=
  match feasible (constraint_score a), feasible (constraint_score b) with
  | true, true => pareto_dominates (objective_vector a) (objective_vector b)
  | true, false => true
  | false, true => false
  | false, false => constraint_score a <? constraint_score b
  end.

(** No member of [pop] dominates [b]. *)
Definition non_dominated_by (pop : list scored) (b : scored) : bool :=
  forallb (fun a => negb (dominates a b)) pop.

(** Modelled from the spec: the library's extraction of front 1, the
    non-dominated set of a population. *)
Definition non_dominated (pop : list scored) : list scored :=
  List.filter (non_dominated_by pop) pop.

End NonDominated.
Arguments scored V : clear implicits.

(** ** Concrete instances *)

(** A generator that yields 1, 2, 3, ... *)
Definition counting_rng : rng Z := fun k => Z.of_nat k + 1.

(** Two cities, one objective, built from [counting_rng]. *)
Definition two_cities : MOTSP.self Z :=
  {| MOTSP.n_cities := 2; MOTSP.distances := [[[0; 3]; [3; 0]]];
     MOTSP.n_var := 2; MOTSP.n_obj := 1; MOTSP.n_constr := 1;
     MOTSP.xl := [0; 0]; MOTSP.xu := [1; 1] |}.

(** Three cities, two objectives, built from [counting_rng]. *)
Definition three_cities : MOTSP.self Z :=
  {| MOTSP.n_cities := 3;
     MOTSP.distances := [[[0; 4; 7]; [4; 0; 8]; [7; 8; 0]];
                         [[0; 13; 16]; [13; 0; 17]; [16; 17; 0]]];
     MOTSP.n_var := 3; MOTSP.n_obj := 2; MOTSP.n_constr := 1;
     MOTSP.xl := [0; 0; 0]; MOTSP.xu := [2; 2; 2] |}.

(** * Properties *)

(** ** Shapes and entries of the arrays *)

Section Arrays.
Context {V : Type} `{Scalar V}.
Implicit Types (d : matrix V) (g : rng V).

Lemma square_row n d i :
  square n d -> (i < n)%nat -> exists row, d !! i = Some row /\ length row = n.
Proof.
  intros [Hlen Hrows] Hi.
  destruct (lookup_lt_is_Some_2 d i) as [row Hrow]; [lia|].
  exists row. split; [done|].
  by eapply (Forall_lookup_1 _ _ _ _ Hrows).
Qed.

Lemma square_entry n d i j :
  square n d -> (i < n)%nat -> (j < n)%nat -> exists v, entry d i j = Some v.
Proof.
  intros Hsq Hi Hj. destruct (square_row n d i Hsq Hi) as (row & Hrow & Hlen).
  unfold entry. rewrite Hrow. apply lookup_lt_is_Some_2. lia.
Qed.

Lemma rand_square n g : square n (rand n g).1.
Proof.
  split; simpl.
  - by rewrite length_fmap, length_seq.
  - apply Forall_fmap, Forall_forall. intros i _. simpl.
    by rewrite length_fmap, length_seq.
Qed.

Lemma rand_entry n g i j :
  (i < n)%nat -> (j < n)%nat -> entry (rand n g).1 i j = Some (g (i * n + j)%nat).
Proof.
  intros Hi Hj. unfold entry, rand. cbn [fst].
  rewrite list_lookup_fmap, lookup_seq_lt by done. cbn [fmap option_fmap option_map].
  by rewrite list_lookup_fmap, lookup_seq_lt.
Qed.

Lemma tril_square n k d : square n d -> square n (tril k d).
Proof.
  intros [Hlen Hrows]. split; unfold tril.
  - by rewrite length_imap.
  - apply Forall_lookup. intros i row. rewrite list_lookup_imap.
    destruct (d !! i) as [r|] eqn:Hr; [|done]. simpl. intros [= <-].
    rewrite length_imap. by eapply (Forall_lookup_1 _ _ _ _ Hrows).
Qed.

Lemma tril_entry k d i j :
  entry (tril k d) i j =
  (fun v => if Z.of_nat j <=? Z.of_nat i + k then v else vzero) <$> entry d i j.
Proof.
  unfold entry, tril. rewrite list_lookup_imap.
  destruct (d !! i) as [r|]; [|done]. simpl. by rewrite list_lookup_imap.
Qed.

Lemma transpose_entry n d i j :
  square n d -> (i < n)%nat -> (j < n)%nat ->
  entry (transpose d) i j = entry d j i.
Proof.
  intros Hsq Hi Hj. unfold entry at 1. unfold transpose.
  assert (Hhd : length (hd [] d) = n).
  { destruct (square_row n d 0 Hsq) as (r & Hr & Hl); [lia|].
    destruct d; simplify_eq/=. done. }
  rewrite Hhd, list_lookup_fmap, lookup_seq_lt by done. simpl.
  rewrite list_lookup_fmap. unfold entry.
  destruct (square_row n d j Hsq Hj) as (r & Hr & Hl). rewrite Hr. simpl.
  rewrite nth_lookup.
  destruct (lookup_lt_is_Some_2 r i) as [v Hv]; [lia|]. by rewrite Hv.
Qed.

Lemma madd_entry (a b : matrix V) i j :
  entry (madd a b) i j =
  match entry a i j, entry b i j with
  | Some u, Some v => Some (vadd u v)
  | _, _ => None
  end.
Proof.
  unfold entry, madd. rewrite lookup_zip_with.
  destruct (a !! i) as [ra|]; simpl; [|done].
  destruct (b !! i) as [rb|]; simpl.
  - rewrite lookup_zip_with.
    destruct (ra !! j); simpl; [|done]. by destruct (rb !! j).
  - by destruct (ra !! j).
Qed.

Lemma zero_diag_entry d i j :
  entry (zero_diag d) i j =
  match entry d i j with
  | Some v => Some (if decide (i = j) then vzero else v)
  | None => None
  end.
Proof.
  unfold entry, zero_diag. rewrite list_lookup_imap.
  destruct (d !! i) as [r|]; simpl; [|done].
  destruct (decide (i = j)) as [->|Hne].
  - destruct (r !! j) eqn:Hr.
    + rewrite list_lookup_insert_eq; [done|]. by eapply lookup_lt_Some.
    + rewrite list_insert_ge; [by rewrite Hr|]. by apply lookup_ge_None_1.
  - rewrite list_lookup_insert_ne by done. by destruct (r !! j).
Qed.

Lemma transpose_square n d : square n d -> square n (transpose d).
Proof.
  intros Hsq. destruct n as [|n].
  - destruct Hsq as [Hlen _]. destruct d; [|done]. by split.
  - assert (Hhd : length (hd [] d) = S n).
    { destruct (square_row (S n) d 0 Hsq) as (r & Hr & Hl); [lia|].
      destruct d; simplify_eq/=. done. }
    unfold transpose. rewrite Hhd. split.
    + by rewrite length_fmap, length_seq.
    + apply Forall_fmap, Forall_forall. intros i _. simpl.
      rewrite length_fmap. apply Hsq.
Qed.

Lemma madd_square n (a b : matrix V) : square n a -> square n b -> square n (madd a b).
Proof.
  intros [Hla Hra] [Hlb Hrb]. unfold madd. split.
  - rewrite length_zip_with. lia.
  - apply Forall_lookup. intros i row. rewrite lookup_zip_with.
    destruct (a !! i) as [ra|] eqn:Ha; simpl; [|done].
    destruct (b !! i) as [rb|] eqn:Hb; simpl; [|done].
    intros [= <-]. rewrite length_zip_with.
    pose proof (Forall_lookup_1 _ _ _ _ Hra Ha) as Hx.
    pose proof (Forall_lookup_1 _ _ _ _ Hrb Hb) as Hy.
    simpl in Hx, Hy. lia.
Qed.

Lemma zero_diag_square n d : square n d -> square n (zero_diag d).
Proof.
  intros [Hlen Hrows]. unfold zero_diag. split.
  - by rewrite length_imap.
  - apply Forall_lookup. intros i row. rewrite list_lookup_imap.
    destruct (d !! i) as [r|] eqn:Hr; [|done]. simpl. intros [= <-].
    rewrite length_insert. by eapply (Forall_lookup_1 _ _ _ _ Hrows).
Qed.

End Arrays.

(** ** The matrices the constructor builds *)

Section Construction.
Context {V : Type} `{Scalar V}.
Implicit Types (d : matrix V) (g : rng V).

Lemma symmetric_matrix_square n d :
  square n d -> square n (MOTSP.symmetric_matrix d).
Proof.
  intros Hsq. unfold MOTSP.symmetric_matrix.
  auto using zero_diag_square, madd_square, tril_square, transpose_square.
Qed.

(** What the three numpy calls leave at row [i], column [j]: the lower
    triangle of the draw, mirrored, around a zero diagonal. *)
Lemma symmetric_matrix_entry n d i j a b :
  square n d -> (i < n)%nat -> (j < n)%nat ->
  entry d i j = Some a -> entry d j i = Some b ->
  entry (MOTSP.symmetric_matrix d) i j =
  Some (if decide (i = j) then vzero
        else if decide (j < i)%nat then vadd a vzero else vadd vzero b).
Proof.
  intros Hsq Hi Hj Ha Hb. unfold MOTSP.symmetric_matrix.
  rewrite zero_diag_entry, madd_entry, tril_entry.
  rewrite (transpose_entry n) by auto using tril_square.
  rewrite tril_entry, Ha, Hb. simpl.
  destruct (decide (i = j)) as [->|Hne]; [done|].
  destruct (decide (j < i)%nat) as [Hlt|Hge].
  - rewrite (proj2 (Z.leb_le _ _)) by lia.
    by rewrite (proj2 (Z.leb_gt _ _)) by lia.
  - rewrite (proj2 (Z.leb_gt _ _)) by lia.
    by rewrite (proj2 (Z.leb_le _ _)) by lia.
Qed.

Lemma symmetric_matrix_symmetric n d :
  square n d -> symmetric n (MOTSP.symmetric_matrix d).
Proof.
  intros Hsq i j Hi Hj.
  destruct (square_entry n d i j Hsq Hi Hj) as [a Ha].
  destruct (square_entry n d j i Hsq Hj Hi) as [b Hb].
  rewrite (symmetric_matrix_entry n d i j a b) by done.
  rewrite (symmetric_matrix_entry n d j i b a) by done.
  eexists. split; [done|]. f_equal.
  destruct (decide (i = j)) as [->|Hne].
  - by rewrite decide_True.
  - rewrite (decide_False (P := j = i)) by done.
    destruct (decide (j < i)%nat), (decide (i < j)%nat); try lia; apply vadd_comm.
Qed.

Lemma symmetric_matrix_zero_diagonal n d :
  square n d -> zero_diagonal n (MOTSP.symmetric_matrix d).
Proof.
  intros Hsq i Hi.
  destruct (square_entry n d i i Hsq Hi Hi) as [a Ha].
  rewrite (symmetric_matrix_entry n d i i a a) by done.
  by rewrite decide_True.
Qed.

Lemma symmetric_matrix_nonneg n d :
  square n d -> nonneg_matrix d -> nonneg_matrix (MOTSP.symmetric_matrix d).
Proof.
  intros Hsq Hnn i j v Hv.
  assert (Hi : (i < n)%nat).
  { destruct (symmetric_matrix_square n d Hsq) as [Hlen _].
    unfold entry in Hv. destruct (_ !! i) eqn:Hr; [|done].
    apply lookup_lt_Some in Hr. lia. }
  assert (Hj : (j < n)%nat).
  { destruct (square_row n _ i (symmetric_matrix_square n d Hsq) Hi) as (r & Hr & Hl).
    unfold entry in Hv. rewrite Hr in Hv. apply lookup_lt_Some in Hv. lia. }
  destruct (square_entry n d i j Hsq Hi Hj) as [a Ha].
  destruct (square_entry n d j i Hsq Hj Hi) as [b Hb].
  rewrite (symmetric_matrix_entry n d i j a b) in Hv by done.
  injection Hv as <-.
  pose proof vleb_zero. pose proof (Hnn _ _ _ Ha). pose proof (Hnn _ _ _ Hb).
  repeat case_decide; auto using vadd_nonneg.
Qed.

Lemma rand_nonneg n g : nonneg_rng g -> nonneg_matrix (rand n g).1.
Proof.
  intros Hg i j v Hv.
  assert (Hi : (i < n)%nat).
  { unfold entry in Hv. destruct (_ !! i) eqn:Hr; [|done].
    apply lookup_lt_Some in Hr. destruct (rand_square n g) as [Hlen _]. lia. }
  assert (Hj : (j < n)%nat).
  { destruct (square_row n _ i (rand_square n g) Hi) as (r & Hr & Hl).
    unfold entry in Hv. rewrite Hr in Hv. apply lookup_lt_Some in Hv. lia. }
  rewrite rand_entry in Hv by done. injection Hv as <-. apply Hg.
Qed.

Lemma rand_rng_nonneg n g : nonneg_rng g -> nonneg_rng (rand n g).2.
Proof. intros Hg k. apply Hg. Qed.

Lemma draw_distances_S n count g :
  MOTSP.draw_distances n (S count) g =
  (MOTSP.symmetric_matrix (rand n g).1
     :: (MOTSP.draw_distances n count (rand n g).2).1,
   (MOTSP.draw_distances n count (rand n g).2).2).
Proof.
  simpl. by destruct (MOTSP.draw_distances n count _).
Qed.

(** Every matrix of the list satisfies [P], when one pass of the loop
    establishes [P] and keeps the generator in [Q]. *)
Lemma draw_distances_Forall (P : matrix V -> Prop) (Q : rng V -> Prop) n :
  (forall g, Q g -> P (MOTSP.symmetric_matrix (rand n g).1)) ->
  (forall g, Q g -> Q (rand n g).2) ->
  forall count g, Q g -> Forall P (MOTSP.draw_distances n count g).1.
Proof.
  intros HP HQ count. induction count as [|count IH]; intros g Hg.
  - constructor.
  - rewrite draw_distances_S. cbn [fst]. constructor; auto.
Qed.

Lemma draw_distances_length n count g :
  length (MOTSP.draw_distances n count g).1 = count.
Proof.
  revert g. induction count as [|count IH]; intros g; [done|].
  rewrite draw_distances_S. cbn [fst length]. by rewrite IH.
Qed.

End Construction.

(** ** Loops and indexing *)

Section Monad.

Lemma bind_inr {A B} (m : py A) (k : A -> py B) (b : B) :
  bind m k = inr b <-> exists a, m = inr a /\ k a = inr b.
Proof.
  destruct m as [e|a]; simpl; split.
  - done.
  - by intros (a & ? & _).
  - eauto.
  - by intros (a' & [= <-] & ?).
Qed.

Lemma foldM_app {A B} (f : A -> B -> py A) (l1 l2 : list B) (a : A) :
  foldM f (l1 ++ l2) a = bind (foldM f l1 a) (foldM f l2).
Proof.
  revert a. induction l1 as [|b l1 IH]; intros a; simpl; [done|].
  destruct (f a b) as [e|a']; simpl; [done|]. apply IH.
Qed.

(** A loop that returns keeps whatever every pass keeps. *)
Lemma foldM_preserves {A B} (I : A -> Prop) (f : A -> B -> py A) (l : list B) :
  (forall a b a', f a b = inr a' -> I a -> I a') ->
  forall a a', foldM f l a = inr a' -> I a -> I a'.
Proof.
  intros Hstep. induction l as [|b l IH]; intros a a'; simpl.
  - by intros [= <-].
  - intros (a1 & H1 & H2)%bind_inr Ha. eauto.
Qed.

(** A loop returns when every pass over its indices does. *)
Lemma foldM_returns {A B} (I : A -> Prop) (f : A -> B -> py A) (l : list B) :
  (forall a b, b ∈ l -> I a -> exists a', f a b = inr a' /\ I a') ->
  forall a, I a -> exists a', foldM f l a = inr a' /\ I a'.
Proof.
  induction l as [|b l IH]; intros Hstep a Ha; simpl.
  - eauto.
  - destruct (Hstep a b) as (a1 & H1 & Ha1); [left|done|].
    rewrite H1. simpl. apply IH; [|done].
    intros a2 b2 Hb2. apply Hstep. by right.
Qed.

End Monad.

Section Indexing.
Context {V : Type} `{Scalar V}.
Implicit Types (d : matrix V) (x : list Z).

Lemma getitem_nth {A} (l : list A) (i : nat) (dflt : A) :
  (i < length l)%nat -> getitem l i = inr (nth i l dflt).
Proof.
  intros Hi. unfold getitem. rewrite nth_lookup.
  by destruct (lookup_lt_is_Some_2 l i Hi) as [a ->].
Qed.

Lemma getitem_inr {A} (l : list A) (i : nat) (a : A) :
  getitem l i = inr a <-> l !! i = Some a.
Proof.
  unfold getitem, ret, raise. destruct (l !! i); split; congruence.
Qed.

Lemma axis_index_nonneg (len : nat) (a : Z) :
  0 <= a < Z.of_nat len -> axis_index len a = inr (Z.to_nat a).
Proof.
  intros Ha. unfold axis_index.
  rewrite (proj2 (Z.leb_le _ _)), (proj2 (Z.ltb_lt _ _)) by lia. done.
Qed.

Lemma axis_index_returns (len : nat) (a : Z) :
  - Z.of_nat len <= a < Z.of_nat len ->
  exists i, axis_index len a = inr i /\ (i < len)%nat.
Proof.
  intros Ha. unfold axis_index.
  destruct (Z.leb_spec 0 a); simpl.
  - rewrite (proj2 (Z.ltb_lt _ _)) by lia. eexists. split; [done|]. lia.
  - rewrite (proj2 (Z.leb_le _ _)), (proj2 (Z.ltb_lt _ _)) by lia. simpl.
    eexists. split; [done|]. lia.
Qed.

Lemma axis_index_bound (len : nat) (a : Z) (i : nat) :
  axis_index len a = inr i -> - Z.of_nat len <= a < Z.of_nat len.
Proof.
  unfold axis_index.
  destruct (Z.leb_spec 0 a), (Z.ltb_spec a (Z.of_nat len)); simpl;
    try (intros _; lia);
    destruct (Z.leb_spec (- Z.of_nat len) a), (Z.ltb_spec a 0); simpl;
    try done; intros _; lia.
Qed.

(** [d[a, b]] with both indices counted from the front is the entry. *)
Lemma getitem2_nonneg n d a b :
  square n d -> 0 <= a < Z.of_nat n -> 0 <= b < Z.of_nat n ->
  exists v, entry d (Z.to_nat a) (Z.to_nat b) = Some v /\ getitem2 d a b = inr v.
Proof.
  intros Hsq Ha Hb.
  destruct (square_row n d (Z.to_nat a) Hsq) as (row & Hrow & Hlen); [lia|].
  destruct (lookup_lt_is_Some_2 row (Z.to_nat b)) as [v Hv]; [lia|].
  exists v. unfold entry, getitem2. rewrite Hrow. split; [done|].
  destruct Hsq as [Hl _].
  rewrite axis_index_nonneg by lia. simpl. unfold getitem at 1. rewrite Hrow. simpl.
  rewrite axis_index_nonneg by lia. simpl. unfold getitem. by rewrite Hv.
Qed.

(** [d[a, b]] returns for indices within [-n, n). *)
Lemma getitem2_returns n d a b :
  square n d -> - Z.of_nat n <= a < Z.of_nat n -> - Z.of_nat n <= b < Z.of_nat n ->
  exists v, getitem2 d a b = inr v.
Proof.
  intros Hsq Ha Hb. pose proof Hsq as [Hl _]. unfold getitem2.
  destruct (axis_index_returns (length d) a) as (i & -> & Hi); [lia|]. simpl.
  destruct (square_row n d i Hsq) as (row & Hrow & Hlen); [lia|].
  unfold getitem at 1. rewrite Hrow. simpl.
  destruct (axis_index_returns (length row) b) as (j & -> & Hj); [lia|]. simpl.
  unfold getitem. destruct (lookup_lt_is_Some_2 row j Hj) as [v ->]. eauto.
Qed.

(** Whatever [d[a, b]] returns is an entry of [d], and both indices lie
    within the bounds of their axes. *)
Lemma getitem2_entry d a b v :
  getitem2 d a b = inr v -> exists i j, entry d i j = Some v.
Proof.
  unfold getitem2.
  intros (i & _ & (row & Hrow & (j & _ & Hv)%bind_inr)%bind_inr)%bind_inr.
  exists i, j. unfold entry.
  apply getitem_inr in Hrow, Hv. by rewrite Hrow.
Qed.

Lemma getitem2_bound n d a b v :
  square n d -> getitem2 d a b = inr v ->
  - Z.of_nat n <= a < Z.of_nat n /\ - Z.of_nat n <= b < Z.of_nat n.
Proof.
  intros Hsq. unfold getitem2.
  intros (i & Hi & (row & Hrow & (j & Hj & Hv)%bind_inr)%bind_inr)%bind_inr.
  pose proof Hsq as [Hl Hrows].
  apply axis_index_bound in Hi, Hj. apply getitem_inr in Hrow.
  pose proof (Forall_lookup_1 _ _ _ _ Hrows Hrow) as Hlen. simpl in Hlen. lia.
Qed.

End Indexing.

(** ** [total_distance] *)

Section TotalDistance.
Context {V : Type} `{Scalar V}.
Implicit Types (d : matrix V) (x : list Z) (s : MOTSP.self V).

Lemma route_at_range (P : Z -> Prop) x k :
  Forall P x -> (k < length x)%nat -> P (route_at x k).
Proof.
  intros Hx Hk. unfold route_at. rewrite nth_lookup.
  destruct (lookup_lt_is_Some_2 x k Hk) as [a Ha]. rewrite Ha. simpl.
  by eapply (Forall_lookup_1 _ _ _ _ Hx).
Qed.

(** One pass of the loop of [total_distance] at index [k + 1]. *)
Lemma total_distance_step s x i d t k (n : nat) :
  square n d -> MOTSP.distances s !! i = Some d ->
  Forall (fun a => 0 <= a < Z.of_nat n) x -> (S k < length x)%nat ->
  (let* a := getitem x (S k - 1) in
   let* b := getitem x (S k) in
   let* m := getitem (MOTSP.distances s) i in
   let* v := getitem2 m a b in
   ret (vadd t v))
  = inr (vadd t (distance d (route_at x k) (route_at x (S k)))).
Proof.
  intros Hsq Hd Hx Hk.
  replace (S k - 1)%nat with k by lia.
  rewrite (getitem_nth x k 0) by lia. simpl.
  rewrite (getitem_nth x (S k) 0) by lia. simpl.
  rewrite (proj2 (getitem_inr _ _ _) Hd). simpl.
  fold (route_at x k) (route_at x (S k)).
  destruct (getitem2_nonneg n d (route_at x k) (route_at x (S k)) Hsq)
    as (v & Hv & ->).
  - apply (route_at_range (fun a => 0 <= a < Z.of_nat n)); [done|lia].
  - apply (route_at_range (fun a => 0 <= a < Z.of_nat n)); [done|lia].
  - simpl. unfold distance. by rewrite Hv.
Qed.

(** The first [m] passes of the loop of [total_distance] add up the first
    [m] edges of the route. *)
Lemma total_distance_prefix n s x i d (m : nat) :
  square n d -> MOTSP.distances s !! i = Some d ->
  Forall (fun a => 0 <= a < Z.of_nat n) x -> (m <= length x - 1)%nat ->
  foldM (fun t k =>
           let* a := getitem x (k - 1) in
           let* b := getitem x k in
           let* m := getitem (MOTSP.distances s) i in
           let* v := getitem2 m a b in
           ret (vadd t v))
        (seq 1 m) vzero
  = inr (big_sum (fun k => distance d (route_at x (k - 1)) (route_at x k)) m).
Proof.
  intros Hsq Hd Hx. induction m as [|m IH]; intros Hm; [done|].
  rewrite seq_S, foldM_app, IH by lia. cbn [bind foldM Nat.add].
  rewrite (total_distance_step s x i d _ m n) by (done || lia).
  cbn [bind ret big_sum]. by replace (S m - 1)%nat with m by lia.
Qed.

(** The loop of [total_distance] computes the open-path cost. *)
Lemma total_distance_open_path n s x i d :
  square n d -> MOTSP.distances s !! i = Some d ->
  Forall (fun a => 0 <= a < Z.of_nat n) x ->
  MOTSP.total_distance s x i = inr (open_path_cost d x).
Proof.
  intros Hsq Hd Hx. unfold MOTSP.total_distance, open_path_cost.
  by apply (total_distance_prefix n).
Qed.

(** [total_distance] returns for a route whose entries numpy accepts as
    indices, counted from the front or from the end. *)
Lemma total_distance_returns n s x i d :
  square n d -> MOTSP.distances s !! i = Some d ->
  Forall (fun a => - Z.of_nat n <= a < Z.of_nat n) x ->
  exists t, MOTSP.total_distance s x i = inr t.
Proof.
  intros Hsq Hd Hx. unfold MOTSP.total_distance.
  match goal with |- exists t, foldM ?f ?l ?t0 = _ =>
    assert (Hloop : exists t, foldM f l t0 = inr t /\ True);
      [apply (foldM_returns (fun _ : V => True) f l); [|done]
      |destruct Hloop as (t & Ht & _); eauto]
  end.
  intros t k [Hk1 Hk2]%elem_of_seq _.
  rewrite (getitem_nth x (k - 1) 0) by lia. simpl.
  rewrite (getitem_nth x k 0) by lia. simpl.
  rewrite (proj2 (getitem_inr _ _ _) Hd). simpl.
  destruct (getitem2_returns n d (nth (k - 1) x 0) (nth k x 0) Hsq) as [v ->].
  - apply (route_at_range (fun a => - Z.of_nat n <= a < Z.of_nat n)); [done|lia].
  - apply (route_at_range (fun a => - Z.of_nat n <= a < Z.of_nat n)); [done|lia].
  - simpl. eauto.
Qed.

(** Over non-negative matrices, what [total_distance] returns is
    non-negative. *)
Lemma total_distance_nonneg s x i t :
  Forall nonneg_matrix (MOTSP.distances s) ->
  MOTSP.total_distance s x i = inr t -> vleb vzero t = true.
Proof.
  intros Hnn Ht. unfold MOTSP.total_distance in Ht.
  eapply (foldM_preserves (fun t => vleb vzero t = true)); [|exact Ht|apply vleb_zero].
  clear Ht t. intros t k t'.
  intros (a & _ & (b & _ & (m & Hm & (v & Hv & [= <-])%bind_inr)%bind_inr)%bind_inr)%bind_inr Hpos.
  apply getitem_inr in Hm. apply getitem2_entry in Hv as (p & q & Hv).
  apply vadd_nonneg; [done|].
  eapply (Forall_lookup_1 _ _ _ _ Hnn Hm), Hv.
Qed.

End TotalDistance.

(** ** [_evaluate] *)

Section Evaluate.
Context {V : Type} `{Scalar V}.
Implicit Types (d : matrix V) (x : list Z) (s : MOTSP.self V) (f : MOTSP.frame V).

(** The result of the first [k] passes of the loop that fills [fits]. *)
Lemma fits_loop_prefix s x (m k : nat) (fits : list V) :
  (k <= m)%nat ->
  foldM (fun fits i =>
           let* t := MOTSP.total_distance s x i in ret (<[i := t]> fits))
        (seq 0 k) (replicate m vzero) = inr fits
  <-> exists ts, Forall2 (fun i t => MOTSP.total_distance s x i = inr t) (seq 0 k) ts
               /\ fits = ts ++ replicate (m - k) vzero.
Proof.
  revert fits. induction k as [|k IH]; intros fits Hk.
  - simpl. rewrite Nat.sub_0_r. split.
    + intros [= <-]. exists []. by split; [constructor|].
    + intros (ts & ->%Forall2_nil_inv_l & ->). done.
  - rewrite seq_S, foldM_app, bind_inr. cbn [foldM Nat.add]. split.
    + intros (fits0 & Hfits0 & (fits1 & (t & Ht & [= <-])%bind_inr & [= <-])%bind_inr).
      apply IH in Hfits0 as (ts & Hts & ->); [|lia].
      exists (ts ++ [t]). split.
      * apply Forall2_app; [done|]. by repeat constructor.
      * pose proof (Forall2_length _ _ _ Hts) as Hlen. rewrite length_seq in Hlen.
        rewrite insert_app_r_alt by lia. rewrite <- Hlen, Nat.sub_diag.
        replace (m - k)%nat with (S (m - S k)) by lia.
        simpl. by rewrite <- app_assoc.
    + intros (ts' & (ts & tl & Hts & Htl & ->)%Forall2_app_inv_l & ->).
      apply Forall2_cons_inv_l in Htl as (t & tl' & Ht & ->%Forall2_nil_inv_l & ->).
      exists (ts ++ replicate (m - k) vzero). split.
      * apply IH; [lia|]. eauto.
      * rewrite Ht. simpl.
        pose proof (Forall2_length _ _ _ Hts) as Hlen. rewrite length_seq in Hlen.
        rewrite insert_app_r_alt by lia. rewrite <- Hlen, Nat.sub_diag.
        replace (m - k)%nat with (S (m - S k)) by lia.
        simpl. by rewrite <- app_assoc.
Qed.

(** The loop that fills [fits] returns exactly the objectives. *)
Lemma fits_loop_inr s x (fits : list V) :
  foldM (fun fits i =>
           let* t := MOTSP.total_distance s x i in ret (<[i := t]> fits))
        (seq 0 (length (MOTSP.distances s)))
        (replicate (length (MOTSP.distances s)) vzero) = inr fits
  <-> objectives_of s x fits.
Proof.
  rewrite fits_loop_prefix by done. rewrite Nat.sub_diag. simpl. split.
  - intros (ts & Hts & ->). by rewrite app_nil_r.
  - intros Hts. exists fits. by rewrite app_nil_r.
Qed.

(** [_evaluate] returns exactly when both the objectives and the constraint
    are computed and there is at least one objective to stack; it then
    stores both in [out] and touches nothing else. *)
Lemma evaluate_inr f f' :
  MOTSP._evaluate f = inr f' <->
  exists fits c,
    objectives_of (MOTSP.this f) (MOTSP.x f) fits /\
    MOTSP.constraint (MOTSP.this f) (MOTSP.x f) = inr c /\
    fits <> [] /\
    f' = {| MOTSP.this := MOTSP.this f; MOTSP.x := MOTSP.x f;
            MOTSP.out := <["G" := MOTSP.Int1 [c]]>
                           (<["F" := MOTSP.Float2 [fits]]> (MOTSP.out f)) |}.
Proof.
  unfold MOTSP._evaluate. rewrite bind_inr. split.
  - intros (fits & Hfits%fits_loop_inr & (c & Hc & (F & HF & [= <-])%bind_inr)%bind_inr).
    exists fits, c. destruct fits; [done|]. by injection HF as <-.
  - intros (fits & c & Hfits%fits_loop_inr & Hc & Hne & ->).
    exists fits. split; [done|]. rewrite Hc. simpl.
    by destruct fits.
Qed.

Lemma objectives_of_length s x fits :
  objectives_of s x fits -> length fits = length (MOTSP.distances s).
Proof.
  intros Hf. apply Forall2_length in Hf. by rewrite length_seq in Hf.
Qed.

Lemma objectives_of_lookup s x fits i t :
  objectives_of s x fits -> fits !! i = Some t ->
  MOTSP.total_distance s x i = inr t.
Proof.
  intros Hf Ht.
  destruct (Forall2_lookup_r _ _ _ _ _ Hf Ht) as (j & Hj & Hd).
  apply lookup_seq in Hj as [-> _]. done.
Qed.

(** The objectives exist when every [total_distance] returns. *)
Lemma objectives_of_returns s x :
  (forall i, (i < length (MOTSP.distances s))%nat ->
             exists t, MOTSP.total_distance s x i = inr t) ->
  exists fits, objectives_of s x fits.
Proof.
  unfold objectives_of. generalize (length (MOTSP.distances s)) as m.
  intros m Hall. induction m as [|m IH].
  - exists []. constructor.
  - destruct IH as [ts Hts]; [intros i Hi; apply Hall; lia|].
    destruct (Hall m) as [t Ht]; [lia|].
    exists (ts ++ [t]). rewrite seq_S. apply Forall2_app; [done|].
    by repeat constructor.
Qed.

(** *** The constraint *)

Lemma np_sum_nonneg (bs : list bool) : 0 <= np_sum bs.
Proof. unfold np_sum. lia. Qed.

(** No position differs exactly when the two arrays are the same. *)
Lemma np_sum_zero (a b : list Z) :
  length a = length b ->
  np_sum (zip_with (fun u v => negb (u =? v)) a b) = 0 <-> a = b.
Proof.
  unfold np_sum. revert b. induction a as [|u a IH]; intros [|v b] Hlen; try done.
  simpl in *. destruct (Z.eqb_spec u v) as [->|Hne]; simpl.
  - rewrite IH by lia. split; congruence.
  - split; [lia|congruence].
Qed.

Lemma arange_length (n : nat) : length (arange (Z.of_nat n)) = n.
Proof. unfold arange. by rewrite length_fmap, length_seq, Nat2Z.id. Qed.

Lemma np_sort_length x : length (np_sort x) = length x.
Proof. unfold np_sort. by rewrite merge_sort_Permutation. Qed.

Lemma arange_sorted (n : Z) : StronglySorted Z.le (arange n).
Proof.
  unfold arange. generalize 0%nat as k. generalize (Z.to_nat n) as m.
  induction m as [|m IH]; intros k; simpl; constructor; [apply IH|].
  apply Forall_fmap, Forall_forall. intros j [Hj _]%elem_of_seq. simpl. lia.
Qed.

(** Sorting yields [0, 1, ..., n-1] exactly for the permutations of it. *)
Lemma np_sort_arange (n : Z) x : arange n = np_sort x <-> x ≡ₚ arange n.
Proof.
  unfold np_sort. split.
  - intros ->. by rewrite merge_sort_Permutation.
  - intros Hperm. apply (StronglySorted_unique Z.le).
    + apply arange_sorted.
    + apply StronglySorted_merge_sort; apply _.
    + by rewrite merge_sort_Permutation.
Qed.

Lemma constraint_nonpos s x c : MOTSP.constraint s x = inr c -> c <= 0.
Proof.
  unfold MOTSP.constraint. intros (ne & _ & [= <-])%bind_inr.
  pose proof (np_sum_nonneg ne). lia.
Qed.

Lemma constraint_returns n s x :
  MOTSP.n_cities s = Z.of_nat n -> length x = n ->
  MOTSP.constraint s x
  = inr (- np_sum (zip_with (fun u v => negb (u =? v))
                            (arange (Z.of_nat n)) (np_sort x))).
Proof.
  intros Hn Hlen. unfold MOTSP.constraint, not_equal. rewrite Hn.
  rewrite decide_True; [done|]. by rewrite arange_length, np_sort_length.
Qed.

Lemma constraint_zero n s x :
  MOTSP.n_cities s = Z.of_nat n -> length x = n ->
  MOTSP.constraint s x = inr 0 <-> x ≡ₚ arange (Z.of_nat n).
Proof.
  intros Hn Hlen. rewrite (constraint_returns n) by done.
  rewrite <- np_sort_arange, <- np_sum_zero
    by (by rewrite arange_length, np_sort_length).
  split; [intros [= Hc]; lia|by intros ->].
Qed.

End Evaluate.

(** ** The concrete instances are built by the constructor *)

Lemma init_two_cities :
  MOTSP.__init__ 2 1 counting_rng = inr (two_cities, fun k => counting_rng (4 + k)%nat).
Proof. reflexivity. Qed.

Lemma init_three_cities :
  MOTSP.__init__ 3 2 counting_rng = inr (three_cities, fun k => counting_rng (18 + k)%nat).
Proof. reflexivity. Qed.

Lemma counting_rng_nonneg : nonneg_rng counting_rng.
Proof. intros k. unfold counting_rng. simpl. apply Z.leb_le. lia. Qed.

Lemma three_cities_well_formed : well_formed 3 three_cities.
Proof. split; [done|]. repeat constructor. Qed.

Lemma two_cities_well_formed : well_formed 2 two_cities.
Proof. split; [done|]. repeat constructor. Qed.

(** The open path 0 - 1 - 2 costs 4 + 8; the edge back from 2 to 0, of
    weight 7, is left out. *)
Example open_path_three_cities :
  MOTSP.total_distance three_cities [0; 1; 2] 0 = inr 12 /\
  closed_tour_cost [[0; 4; 7]; [4; 0; 8]; [7; 8; 0]] [0; 1; 2] = 19.
Proof. split; reflexivity. Qed.

(** ** Evaluation of an individual *)

Section EvaluationProperties.
Context {V : Type} `{Scalar V}.
Implicit Types (d : matrix V) (x : list Z) (s : MOTSP.self V) (f : MOTSP.frame V).
Implicit Types (o : gmap string (MOTSP.ndarray V)).

Lemma arange_range (n : nat) :
  Forall (fun a => 0 <= a < Z.of_nat n) (arange (Z.of_nat n)).
Proof.
  unfold arange. rewrite Nat2Z.id. apply Forall_fmap, Forall_forall.
  intros j [_ Hj]%elem_of_seq. simpl. lia.
Qed.

Lemma permutation_range (n : nat) x :
  x ≡ₚ arange (Z.of_nat n) -> Forall (fun a => 0 <= a < Z.of_nat n) x.
Proof. intros ->. apply arange_range. Qed.

Lemma permutation_length (n : nat) x :
  x ≡ₚ arange (Z.of_nat n) -> length x = n.
Proof. intros ->. apply arange_length. Qed.

(** [_evaluate] returns on every route of the right length whose entries
    numpy accepts as indices, as soon as there is one objective. *)
Lemma evaluate_returns (n : nat) s x o :
  well_formed n s -> MOTSP.distances s <> [] -> length x = n ->
  Forall (fun a => - Z.of_nat n <= a < Z.of_nat n) x ->
  exists f', MOTSP._evaluate {| MOTSP.this := s; MOTSP.x := x; MOTSP.out := o |} = inr f'.
Proof.
  intros [Hn Hsq] Hne Hlen Hx.
  destruct (objectives_of_returns s x) as [fits Hfits].
  { intros i Hi. destruct (lookup_lt_is_Some_2 _ i Hi) as [d Hd].
    apply (total_distance_returns n s x i d); [|done..].
    by eapply (Forall_lookup_1 _ _ _ _ Hsq). }
  eexists. apply evaluate_inr. exists fits. eexists. simpl.
  split; [done|]. split; [by apply (constraint_returns n)|]. split; [|done].
  apply objectives_of_length in Hfits. destruct fits, (MOTSP.distances s); done.
Qed.

(** C3: for a route of length [N] over the cities [0 .. N-1], objective [i]
    of the evaluation is the sum of [distance_i[route[k-1]][route[k]]] for
    [k = 1 .. N-1]: the cost of the open path, without the edge from the last
    city back to the first. *)
Theorem objective_is_open_path_cost (n : nat) s x o (i : nat) d :
  well_formed n s -> MOTSP.distances s !! i = Some d ->
  length x = n -> Forall (fun a => 0 <= a < Z.of_nat n) x ->
  exists f' fits,
    MOTSP._evaluate {| MOTSP.this := s; MOTSP.x := x; MOTSP.out := o |} = inr f' /\
    MOTSP.out f' !! "F" = Some (MOTSP.Float2 [fits]) /\
    fits !! i = Some (open_path_cost d x).
Proof.
  intros Hwf Hd Hlen Hx.
  destruct (evaluate_returns n s x o) as [f' Hf']; [done| |done| |].
  { intros Hnil. by rewrite Hnil in Hd. }
  { eapply Forall_impl; [exact Hx|]. simpl. lia. }
  pose proof Hf' as (fits & c & Hfits & _ & _ & ->)%evaluate_inr. simpl in *.
  eexists. exists fits. split; [done|]. simpl. split.
  { rewrite lookup_insert_ne by done. by rewrite lookup_insert_eq. }
  destruct (lookup_lt_is_Some_2 fits i) as [t Ht].
  { rewrite (objectives_of_length _ _ _ Hfits). by eapply lookup_lt_Some. }
  rewrite Ht. f_equal.
  pose proof (objectives_of_lookup _ _ _ _ _ Hfits Ht) as Hi.
  destruct Hwf as [_ Hsq].
  rewrite (total_distance_open_path n s x i d) in Hi; [congruence| |done..].
  by eapply (Forall_lookup_1 _ _ _ _ Hsq).
Qed.

(** C4: for a route of length [N], the evaluation stores the constraint
    value zero exactly when the route is a permutation of [0 .. N-1], that
    is, when sorting it yields [0, 1, ..., N-1]. *)
Theorem constraint_zero_iff_permutation (n : nat) s x o :
  well_formed n s -> MOTSP.distances s <> [] -> length x = n ->
  ((exists f', MOTSP._evaluate {| MOTSP.this := s; MOTSP.x := x; MOTSP.out := o |} = inr f' /\
               MOTSP.out f' !! "G" = Some (MOTSP.Int1 [0]))
   <-> x ≡ₚ arange (Z.of_nat n)) /\
  (x ≡ₚ arange (Z.of_nat n) <-> np_sort x = arange (Z.of_nat n)).
Proof.
  intros Hwf Hne Hlen. split; [|by rewrite <- np_sort_arange]. split.
  - intros (f' & (fits & c & _ & Hc & _ & ->)%evaluate_inr & HG). simpl in *.
    rewrite lookup_insert_eq in HG. injection HG as ->.
    apply (constraint_zero n s); [apply Hwf|done..].
  - intros Hperm.
    destruct (evaluate_returns n s x o) as [f' Hf']; [done..| |].
    { eapply Forall_impl; [by apply permutation_range|]. simpl. lia. }
    exists f'. split; [done|].
    apply evaluate_inr in Hf' as (fits & c & _ & Hc & _ & ->). simpl in *.
    rewrite lookup_insert_eq. do 3 f_equal.
    apply (constraint_zero n s) in Hperm; [|apply Hwf|done]. congruence.
Qed.

(** C5: whatever the input vector, the constraint value that the
    evaluation stores is the negation of a count, hence never positive, and
    the individual counts as feasible; and the evaluation does return on
    malformed routes whose entries are valid indices. *)
Theorem constraint_never_positive (n : nat) s x o :
  (forall f', MOTSP._evaluate {| MOTSP.this := s; MOTSP.x := x; MOTSP.out := o |} = inr f' ->
     exists c, MOTSP.out f' !! "G" = Some (MOTSP.Int1 [c]) /\ c <= 0 /\ feasible c = true) /\
  (well_formed n s -> MOTSP.distances s <> [] -> length x = n ->
   Forall (fun a => - Z.of_nat n <= a < Z.of_nat n) x ->
   exists f', MOTSP._evaluate {| MOTSP.this := s; MOTSP.x := x; MOTSP.out := o |} = inr f').
Proof.
  split; [|apply evaluate_returns].
  intros f' (fits & c & _ & Hc%constraint_nonpos & _ & ->)%evaluate_inr. simpl in *.
  exists c. rewrite lookup_insert_eq. split; [done|]. split; [done|].
  unfold feasible. by apply Z.leb_le.
Qed.

(** C8: the evaluation is a function of the instance and the individual:
    it leaves both as they were, changes nothing of [out] but the entries
    ["F"] and ["G"], and evaluating again, into the same dictionary or into
    any other, stores the same two arrays. *)
Theorem evaluate_pure f f' :
  MOTSP._evaluate f = inr f' ->
  MOTSP.this f' = MOTSP.this f /\
  MOTSP.x f' = MOTSP.x f /\
  (forall key, key <> "F" -> key <> "G" -> MOTSP.out f' !! key = MOTSP.out f !! key) /\
  MOTSP._evaluate f' = inr f' /\
  (forall o, exists f2,
     MOTSP._evaluate {| MOTSP.this := MOTSP.this f; MOTSP.x := MOTSP.x f;
                        MOTSP.out := o |} = inr f2 /\
     MOTSP.this f2 = MOTSP.this f /\ MOTSP.x f2 = MOTSP.x f /\
     MOTSP.out f2 !! "F" = MOTSP.out f' !! "F" /\
     MOTSP.out f2 !! "G" = MOTSP.out f' !! "G").
Proof.
  intros (fits & c & Hfits & Hc & Hne & ->)%evaluate_inr. simpl.
  split; [done|]. split; [done|]. split; [|split].
  - intros key HF HG. by rewrite !lookup_insert_ne.
  - apply evaluate_inr. exists fits, c. simpl. repeat split; try done.
    f_equal. apply map_eq. intros key.
    destruct (decide (key = "G")) as [->|HG]; [by rewrite !lookup_insert_eq|].
    rewrite !(lookup_insert_ne _ "G") by done.
    destruct (decide (key = "F")) as [->|HF]; [by rewrite !lookup_insert_eq|].
    by rewrite !lookup_insert_ne.
  - intros o. eexists. split.
    + apply evaluate_inr. exists fits, c. simpl. done.
    + simpl. repeat split; try done.
      * by rewrite !(lookup_insert_ne _ "G"), !lookup_insert_eq.
      * by rewrite !lookup_insert_eq.
Qed.

End EvaluationProperties.

(** ** Construction of an instance *)

Section ConstructionProperties.
Context {V : Type} `{Scalar V}.
Implicit Types (d : matrix V) (g : rng V) (x : list Z) (s : MOTSP.self V).
Implicit Types (o : gmap string (MOTSP.ndarray V)).

(** What the constructor returns, when it returns. *)
Lemma init_inr (n_cities n_obj : Z) g s g' :
  MOTSP.__init__ n_cities n_obj g = inr (s, g') ->
  0 <= n_cities /\
  MOTSP.n_cities s = n_cities /\
  MOTSP.distances s
  = (MOTSP.draw_distances (Z.to_nat n_cities) (Z.to_nat n_obj) g).1.
Proof.
  unfold MOTSP.__init__. destruct (Z.ltb_spec n_cities 0); [done|].
  destruct (MOTSP.draw_distances _ _ g) as [ds g2]. intros [= <- <-]. done.
Qed.

Lemma init_returns (n_cities n_obj : Z) g :
  0 <= n_cities -> exists s g', MOTSP.__init__ n_cities n_obj g = inr (s, g').
Proof.
  intros Hn. unfold MOTSP.__init__. rewrite (proj2 (Z.ltb_ge _ _)) by done.
  destruct (MOTSP.draw_distances _ _ g) as [ds g2]. eauto.
Qed.

Lemma init_well_formed (n_cities n_obj : Z) g s g' :
  MOTSP.__init__ n_cities n_obj g = inr (s, g') ->
  well_formed (Z.to_nat n_cities) s.
Proof.
  intros (Hn & Hc & Hd)%init_inr. split; [lia|]. rewrite Hd.
  apply (draw_distances_Forall _ (fun _ => True)); [|done..].
  intros g0 _. apply symmetric_matrix_square, rand_square.
Qed.

Lemma init_length (n_cities n_obj : Z) g s g' :
  MOTSP.__init__ n_cities n_obj g = inr (s, g') ->
  length (MOTSP.distances s) = Z.to_nat n_obj.
Proof. intros (_ & _ & ->)%init_inr. apply draw_distances_length. Qed.

(** C6: the constructor builds [n_obj] matrices, each [n_cities] x
    [n_cities], symmetric and with a zero diagonal, and evaluating an
    individual leaves them as they are. *)
Theorem distance_matrices_symmetric (n_cities n_obj : Z) g s g' :
  MOTSP.__init__ n_cities n_obj g = inr (s, g') ->
  length (MOTSP.distances s) = Z.to_nat n_obj /\
  Forall (fun d => square (Z.to_nat n_cities) d /\
                   symmetric (Z.to_nat n_cities) d /\
                   zero_diagonal (Z.to_nat n_cities) d) (MOTSP.distances s) /\
  (forall x o f',
     MOTSP._evaluate {| MOTSP.this := s; MOTSP.x := x; MOTSP.out := o |} = inr f' ->
     MOTSP.distances (MOTSP.this f') = MOTSP.distances s /\
     MOTSP.n_cities (MOTSP.this f') = MOTSP.n_cities s).
Proof.
  intros Hinit. pose proof Hinit as (Hn & Hc & Hd)%init_inr.
  split; [|split].
  - by eapply init_length.
  - rewrite Hd. apply (draw_distances_Forall _ (fun _ => True)); [|done..].
    intros g0 _. pose proof (rand_square (Z.to_nat n_cities) g0).
    auto using symmetric_matrix_square, symmetric_matrix_symmetric,
      symmetric_matrix_zero_diagonal.
  - intros x o f' (fits & c & _ & _ & _ & ->)%evaluate_inr. done.
Qed.

Lemma init_nonneg (n_cities n_obj : Z) g s g' :
  nonneg_rng g -> MOTSP.__init__ n_cities n_obj g = inr (s, g') ->
  Forall nonneg_matrix (MOTSP.distances s).
Proof.
  intros Hg (Hn & Hc & Hd)%init_inr. rewrite Hd.
  apply (draw_distances_Forall _ nonneg_rng); [| |done].
  - intros g0 Hg0. apply (symmetric_matrix_nonneg (Z.to_nat n_cities)).
    + apply rand_square.
    + by apply rand_nonneg.
  - intros g0 Hg0. by apply rand_rng_nonneg.
Qed.

(** C7: against an instance built with [n_obj] matrices, the objectives
    that the evaluation stores are [n_obj] in number and none is negative;
    and the evaluation returns them for every permutation of the cities, as
    soon as there is one objective. *)
Theorem objective_vector_nonneg (n_cities n_obj : Z) g s g' x o :
  nonneg_rng g -> MOTSP.__init__ n_cities n_obj g = inr (s, g') ->
  (forall f', MOTSP._evaluate {| MOTSP.this := s; MOTSP.x := x; MOTSP.out := o |} = inr f' ->
     exists fits, MOTSP.out f' !! "F" = Some (MOTSP.Float2 [fits]) /\
                  length fits = Z.to_nat n_obj /\
                  Forall (fun t => vleb vzero t = true) fits) /\
  (1 <= n_obj -> x ≡ₚ arange n_cities ->
   exists f', MOTSP._evaluate {| MOTSP.this := s; MOTSP.x := x; MOTSP.out := o |} = inr f').
Proof.
  intros Hg Hinit. pose proof (init_nonneg _ _ _ _ _ Hg Hinit) as Hnn.
  pose proof (init_well_formed _ _ _ _ _ Hinit) as Hwf.
  pose proof (init_length _ _ _ _ _ Hinit) as Hlen.
  pose proof Hinit as (Hn & _)%init_inr.
  split.
  - intros f' (fits & c & Hfits & _ & _ & ->)%evaluate_inr. simpl in *.
    exists fits. split; [|split].
    + rewrite lookup_insert_ne by done. by rewrite lookup_insert_eq.
    + by rewrite (objectives_of_length _ _ _ Hfits).
    + apply Forall_lookup. intros i t Ht.
      eapply total_distance_nonneg; [done|].
      by eapply objectives_of_lookup.
  - intros Hm Hperm. rewrite <- (Z2Nat.id n_cities) in Hperm by done.
    apply (evaluate_returns (Z.to_nat n_cities)); [done| | |].
    + intros Hnil. rewrite Hnil in Hlen. simpl in Hlen. lia.
    + by apply permutation_length.
    + eapply Forall_impl; [by apply permutation_range|]. simpl. lia.
Qed.

(** C9, as the code has it: the constructor checks nothing of its own.
    It raises only for a negative city count, which [np.zeros] refuses, and
    for every other count, 0 and 1 included, and every number of objectives
    it returns an instance with matrices of that size. *)
Theorem init_only_rejects_negative (n_cities n_obj : Z) g :
  (n_cities < 0 -> MOTSP.__init__ n_cities n_obj g = inl ValueError) /\
  (0 <= n_cities ->
   exists s g', MOTSP.__init__ n_cities n_obj g = inr (s, g') /\
                MOTSP.n_cities s = n_cities /\
                length (MOTSP.distances s) = Z.to_nat n_obj /\
                Forall (square (Z.to_nat n_cities)) (MOTSP.distances s)).
Proof.
  split.
  - intros Hn. unfold MOTSP.__init__. by rewrite (proj2 (Z.ltb_lt _ _)).
  - intros Hn. destruct (init_returns n_cities n_obj g Hn) as (s & g' & Hinit).
    exists s, g'. split; [done|].
    pose proof Hinit as (_ & Hc & Hd)%init_inr.
    pose proof (init_well_formed _ _ _ _ _ Hinit) as [_ Hsq].
    split; [done|]. split; [|done]. by eapply init_length.
Qed.

End ConstructionProperties.

(** ** Reproducibility of a run *)

Section Reproducibility.
Context {V : Type} `{Scalar V}.
Implicit Types (d : matrix V) (g : rng V).

(** Two square arrays with the same entries are the same array. *)
Lemma square_ext n d d' :
  square n d -> square n d' ->
  (forall i j, (i < n)%nat -> (j < n)%nat -> entry d i j = entry d' i j) ->
  d = d'.
Proof.
  intros Hd Hd' Hent. apply list_eq. intros i.
  destruct (decide (i < n)%nat) as [Hi|Hi].
  - destruct (square_row n d i Hd Hi) as (r & Hr & Hl).
    destruct (square_row n d' i Hd' Hi) as (r' & Hr' & Hl').
    rewrite Hr, Hr'. f_equal. apply list_eq. intros j.
    destruct (decide (j < n)%nat) as [Hj|Hj].
    + specialize (Hent i j Hi Hj). unfold entry in Hent. by rewrite Hr, Hr' in Hent.
    + by rewrite !lookup_ge_None_2 by lia.
  - destruct Hd as [Hl _], Hd' as [Hl' _]. by rewrite !lookup_ge_None_2 by lia.
Qed.

(** The matrix depends on the draw through its strict lower triangle
    only. *)
Lemma symmetric_matrix_lower n d d' :
  square n d -> square n d' ->
  (forall i j, (j < i < n)%nat -> entry d i j = entry d' i j) ->
  MOTSP.symmetric_matrix d = MOTSP.symmetric_matrix d'.
Proof.
  intros Hd Hd' Hlow.
  apply (square_ext n); [by apply symmetric_matrix_square..|].
  intros i j Hi Hj.
  destruct (square_entry n d i j Hd Hi Hj) as [a Ha].
  destruct (square_entry n d j i Hd Hj Hi) as [b Hb].
  destruct (square_entry n d' i j Hd' Hi Hj) as [a' Ha'].
  destruct (square_entry n d' j i Hd' Hj Hi) as [b' Hb'].
  rewrite (symmetric_matrix_entry n d i j a b) by done.
  rewrite (symmetric_matrix_entry n d' i j a' b') by done.
  f_equal. destruct (decide (i = j)); [done|].
  destruct (decide (j < i)%nat).
  - specialize (Hlow i j). rewrite Ha, Ha' in Hlow. f_equal.
    assert (Some a = Some a') by (apply Hlow; lia). congruence.
  - specialize (Hlow j i). rewrite Hb, Hb' in Hlow. f_equal.
    assert (Some b = Some b') by (apply Hlow; lia). congruence.
Qed.

Lemma draw_distances_same_draws n count g g' :
  same_draws n count g g' ->
  (MOTSP.draw_distances n count g).1 = (MOTSP.draw_distances n count g').1.
Proof.
  revert g g'. induction count as [|count IH]; intros g g' Hsame; [done|].
  rewrite !draw_distances_S. cbn [fst]. f_equal.
  - apply (symmetric_matrix_lower n); [apply rand_square..|].
    intros i j Hij. rewrite !rand_entry by lia. f_equal.
    specialize (Hsame 0%nat i j). simpl in Hsame. apply Hsame; lia.
  - apply IH. intros b i j Hb Hij. unfold rand. cbn [snd].
    specialize (Hsame (S b) i j).
    replace (n * n + (b * (n * n) + (i * n + j)))%nat
      with (S b * (n * n) + (i * n + j))%nat by lia.
    apply Hsame; lia.
Qed.

(** C2, as the code has it: with the seed and the configuration fixed, two
    runs produce the same result when the generator hands the constructor
    the same draws in both, which the seed, given to [minimize] only after
    the problem is built, does not see to. *)
Theorem run_reproducible_given_draws {algorithm termination result : Type}
    (seeded : Z -> rng V)
    (minimize : MOTSP.self V -> algorithm -> termination -> rng V -> result)
    (n_cities n_obj : Z) (alg : algorithm) (term : termination) (seed : Z) g g' :
  same_draws (Z.to_nat n_cities) (Z.to_nat n_obj) g g' ->
  notebook seeded minimize n_cities n_obj alg term seed g
  = notebook seeded minimize n_cities n_obj alg term seed g'.
Proof.
  intros Hsame%draw_distances_same_draws. unfold notebook, MOTSP.__init__.
  destruct (n_cities <? 0); [done|].
  destruct (MOTSP.draw_distances _ _ g) as [ds g1].
  destruct (MOTSP.draw_distances _ _ g') as [ds' g1'].
  simpl in *. by subst.
Qed.

End Reproducibility.

(** ** Non-dominated sets *)

Section Domination.
Context {V : Type} `{Scalar V}.

Lemma filter_all {A} (p : A -> bool) (l : list A) :
  (forall a, In a l -> p a = true) -> List.filter p l = l.
Proof.
  induction l as [|a l IH]; intros Hall; simpl; [done|].
  rewrite Hall by (by left). f_equal. apply IH. intros b Hb. apply Hall. by right.
Qed.

Lemma non_dominated_In pop b :
  In b (non_dominated pop) <->
  In b pop /\ forall a, In a pop -> dominates a b = false.
Proof.
  unfold non_dominated, non_dominated_by.
  rewrite filter_In, forallb_forall.
  split; intros [Hb Hall]; (split; [done|]); intros a Ha; specialize (Hall a Ha).
  - by apply negb_true_iff.
  - by apply negb_true_iff.
Qed.

(** C10: extracting the non-dominated set of a front 1 gives that front
    back; its members do not dominate one another. *)
Theorem non_dominated_idempotent (pop : list (scored V)) :
  non_dominated (non_dominated pop) = non_dominated pop /\
  (forall a b, In a (non_dominated pop) -> In b (non_dominated pop) ->
               dominates a b = false).
Proof.
  assert (Hmutual : forall a b, In a (non_dominated pop) ->
                      In b (non_dominated pop) -> dominates a b = false).
  { intros a b [Ha _]%non_dominated_In [_ Hb]%non_dominated_In. by apply Hb. }
  split; [|done].
  unfold non_dominated at 1. apply filter_all. intros b Hb.
  unfold non_dominated_by. apply forallb_forall. intros a Ha.
  apply negb_true_iff. by apply Hmutual.
Qed.

End Domination.

(** ** The properties on concrete instances *)

(** C1: the route [0, 0] over two cities visits city 0 twice and city 1
    never, and the evaluation stores the constraint value -1 for it: a
    value that is not positive, so that the route counts as feasible. *)
Theorem malformed_route_scores_negative :
  ~ [0; 0] ≡ₚ arange 2 /\
  exists f',
    MOTSP._evaluate {| MOTSP.this := two_cities; MOTSP.x := [0; 0]; MOTSP.out := ∅ |}
    = inr f' /\
    MOTSP.out f' !! "G" = Some (MOTSP.Int1 [-1]) /\
    feasible (-1) = true.
Proof.
  split.
  - intros Hperm. assert (Hin : 1 ∈ [0; 0]) by (rewrite Hperm; by right; left).
    set_unfold in Hin. lia.
  - eexists. split; [reflexivity|]. split; reflexivity.
Qed.

(** C2 fails: with the same configuration and the same seed, a process
    whose generator yields 1, 1, 1, ... at construction and one whose
    generator yields 2, 2, 2, ... build different matrices, and each of the
    two individuals of the two-city problem gets the objective vector [1] in
    the first run and [2] in the second. *)
Lemma runs_differ_with_generator_state :
  let g1 : rng Z := fun _ => 1 in
  let g2 : rng Z := fun _ => 2 in
  exists s1 s2 r1 r2,
    MOTSP.__init__ 2 1 g1 = inr (s1, r1) /\
    MOTSP.__init__ 2 1 g2 = inr (s2, r2) /\
    MOTSP.distances s1 = [[[0; 1]; [1; 0]]] /\
    MOTSP.distances s2 = [[[0; 2]; [2; 0]]] /\
    (forall x, x = [0; 1] \/ x = [1; 0] ->
       exists f1 f2,
         MOTSP._evaluate {| MOTSP.this := s1; MOTSP.x := x; MOTSP.out := ∅ |} = inr f1 /\
         MOTSP._evaluate {| MOTSP.this := s2; MOTSP.x := x; MOTSP.out := ∅ |} = inr f2 /\
         MOTSP.out f1 !! "F" = Some (MOTSP.Float2 [[1]]) /\
         MOTSP.out f2 !! "F" = Some (MOTSP.Float2 [[2]])) /\
    notebook (fun seed _ => seed)
             (fun problem (_ _ : unit) _ => MOTSP.total_distance problem [0; 1] 0)
             2 1 () () 1 g1
    <> notebook (fun seed _ => seed)
                (fun problem (_ _ : unit) _ => MOTSP.total_distance problem [0; 1] 0)
                2 1 () () 1 g2.
Proof.
  intros g1 g2. do 4 eexists.
  split; [reflexivity|]. split; [reflexivity|].
  split; [reflexivity|]. split; [reflexivity|]. split.
  - intros x [-> | ->]; do 2 eexists;
      (split; [reflexivity|]); (split; [reflexivity|]); split; reflexivity.
  - vm_compute. discriminate.
Qed.

(** C9 fails: a problem with a single city is constructed, with its 1 x 1
    zero matrix, and so is one with no city at all. *)
Lemma init_accepts_fewer_than_two_cities :
  (exists s g', MOTSP.__init__ 1 1 counting_rng = inr (s, g') /\
                MOTSP.n_cities s = 1 /\ MOTSP.distances s = [[[0]]]) /\
  (exists s g', MOTSP.__init__ 0 1 counting_rng = inr (s, g') /\
                MOTSP.n_cities s = 0 /\ MOTSP.distances s = [[]]).
Proof.
  split; do 2 eexists; (split; [reflexivity|]); split; reflexivity.
Qed.

(** A population of three, the second member dominated by the first. *)
Example non_dominated_three :
  let a := {| route := [0; 1; 2]; objective_vector := [1; 5]; constraint_score := 0 |} in
  let b := {| route := [0; 2; 1]; objective_vector := [2; 6]; constraint_score := 0 |} in
  let c := {| route := [1; 0; 2]; objective_vector := [3; 4]; constraint_score := 0 |} in
  non_dominated [a; b; c] = [a; c].
Proof. reflexivity. Qed.

(** The second objective of the route 2 - 0 - 1 over three cities. *)
Lemma objective_is_open_path_cost_witness :
  exists f' fits,
    MOTSP._evaluate {| MOTSP.this := three_cities; MOTSP.x := [2; 0; 1]; MOTSP.out := ∅ |}
    = inr f' /\
    MOTSP.out f' !! "F" = Some (MOTSP.Float2 [fits]) /\
    fits !! 1%nat = Some (open_path_cost [[0; 13; 16]; [13; 0; 17]; [16; 17; 0]] [2; 0; 1]).
Proof.
  apply (objective_is_open_path_cost 3 three_cities [2; 0; 1] ∅ 1).
  - split; [reflexivity|]. repeat constructor.
  - reflexivity.
  - reflexivity.
  - repeat constructor; lia.
Defined.

(** The route 2 - 0 - 1 over three cities. *)
Lemma constraint_zero_iff_permutation_witness :
  ((exists f',
      MOTSP._evaluate {| MOTSP.this := three_cities; MOTSP.x := [2; 0; 1]; MOTSP.out := ∅ |}
      = inr f' /\ MOTSP.out f' !! "G" = Some (MOTSP.Int1 [0]))
   <-> [2; 0; 1] ≡ₚ arange 3) /\
  ([2; 0; 1] ≡ₚ arange 3 <-> np_sort [2; 0; 1] = arange 3).
Proof.
  apply (constraint_zero_iff_permutation 3 three_cities [2; 0; 1] ∅).
  - split; [reflexivity|]. repeat constructor.
  - discriminate.
  - reflexivity.
Defined.

(** The malformed route [0, 0, -1] over three cities is evaluated. *)
Lemma constraint_never_positive_witness :
  exists f',
    MOTSP._evaluate {| MOTSP.this := three_cities; MOTSP.x := [0; 0; -1]; MOTSP.out := ∅ |}
    = inr f'.
Proof.
  apply (proj2 (constraint_never_positive 3 three_cities [0; 0; -1] ∅)).
  - split; [reflexivity|]. repeat constructor.
  - discriminate.
  - reflexivity.
  - repeat constructor; lia.
Defined.

(** Evaluating the route 0 - 1 - 2 a second time. *)
Lemma evaluate_pure_witness :
  let f := {| MOTSP.this := three_cities; MOTSP.x := [0; 1; 2]; MOTSP.out := ∅ |} in
  let f' := {| MOTSP.this := three_cities; MOTSP.x := [0; 1; 2];
               MOTSP.out := <["G" := MOTSP.Int1 [0]]>
                              (<["F" := MOTSP.Float2 [[12; 30]]]> ∅) |} in
  MOTSP._evaluate f' = inr f'.
Proof.
  intros f f'. apply (evaluate_pure f f'). reflexivity.
Defined.

(** The two matrices of the three-city instance. *)
Lemma distance_matrices_symmetric_witness :
  length (MOTSP.distances three_cities) = 2%nat /\
  Forall (fun d => square 3 d /\ symmetric 3 d /\ zero_diagonal 3 d)
         (MOTSP.distances three_cities).
Proof.
  pose proof (distance_matrices_symmetric 3 2 counting_rng three_cities
                (fun k => counting_rng (18 + k)%nat)) as Hthm.
  destruct Hthm as (Hlen & Hall & _); [reflexivity|]. split; [exact Hlen|exact Hall].
Defined.

(** The route 1 - 2 - 0 over three cities is evaluated. *)
Lemma objective_vector_nonneg_witness :
  exists f',
    MOTSP._evaluate {| MOTSP.this := three_cities; MOTSP.x := [1; 2; 0]; MOTSP.out := ∅ |}
    = inr f'.
Proof.
  assert (Hg : nonneg_rng counting_rng).
  { intros k. unfold counting_rng. simpl. apply Z.leb_le. lia. }
  apply (proj2 (objective_vector_nonneg 3 2 counting_rng three_cities
                  (fun k => counting_rng (18 + k)%nat) [1; 2; 0] ∅ Hg eq_refl)).
  - lia.
  - change (arange 3) with [0; 1; 2]. symmetry.
    apply (Permutation_cons_append [1; 2] 0).
Defined.

(** A negative city count and a single city. *)
Lemma init_only_rejects_negative_witness :
  MOTSP.__init__ (-1) 2 counting_rng = inl ValueError /\
  exists s g', MOTSP.__init__ 1 2 counting_rng = inr (s, g') /\
               MOTSP.n_cities s = 1 /\
               length (MOTSP.distances s) = 2%nat /\
               Forall (square 1) (MOTSP.distances s).
Proof.
  split.
  - apply (proj1 (init_only_rejects_negative (-1) 2 counting_rng)). lia.
  - apply (proj2 (init_only_rejects_negative 1 2 counting_rng)). lia.
Defined.

(** Two generators that differ everywhere but on the one draw that reaches
    the 2 x 2 matrix. *)
Lemma run_reproducible_given_draws_witness :
  let g : rng Z := counting_rng in
  let g' : rng Z := fun k => if (k =? 2)%nat then 3 else 0 in
  let seeded : Z -> rng Z := fun seed _ => seed in
  let minimize := fun problem (_ _ : unit) (_ : rng Z) =>
                    MOTSP.total_distance problem [0; 1] 0 in
  notebook seeded minimize 2 1 () () 1 g = notebook seeded minimize 2 1 () () 1 g'.
Proof.
  intros g g' seeded minimize.
  apply (run_reproducible_given_draws seeded minimize 2 1 () () 1 g g').
  intros b i j Hb Hij.
  assert (b = 0%nat) as -> by lia. assert (i = 1%nat) as -> by lia.
  assert (j = 0%nat) as -> by lia. reflexivity.
Defined.

(** * Further properties of the class *)

(** ** Exceptions of the loops *)

Section Exceptions.

Lemma bind_inl {A B} (m : py A) (k : A -> py B) (e : exn) :
  bind m k = inl e <-> m = inl e \/ exists a, m = inr a /\ k a = inl e.
Proof.
  destruct m as [e'|a]; simpl; split.
  - intros [= ->]. by left.
  - intros [[= ->]|(a & [=] & _)]. done.
  - intros Hk. right. eauto.
  - intros [[=]|(a' & [= <-] & Hk)]. done.
Qed.

(** A loop raises what one of its passes raises. *)
Lemma foldM_inl {A B} (P : exn -> Prop) (f : A -> B -> py A) (l : list B) :
  (forall a b e, f a b = inl e -> P e) ->
  forall a e, foldM f l a = inl e -> P e.
Proof.
  intros Hstep. induction l as [|b l IH]; intros a e; simpl; [done|].
  intros [Hb|(a' & _ & Hl)]%bind_inl; eauto.
Qed.

(** In a loop that returns, every pass returned. *)
Lemma foldM_inr_pass {A B} (f : A -> B -> py A) (l : list B) (a a' : A) :
  foldM f l a = inr a' ->
  forall b, b ∈ l -> exists a1 a2, f a1 b = inr a2.
Proof.
  revert a. induction l as [|b0 l IH]; intros a; simpl.
  - intros _ b Hb. by apply elem_of_nil in Hb.
  - intros (a1 & H1 & Hl)%bind_inr b [->|Hb]%elem_of_cons; eauto.
Qed.

(** Two loop bodies that agree on the indices of the loop give one loop. *)
Lemma foldM_ext {A B} (f f' : A -> B -> py A) (l : list B) :
  (forall a b, b ∈ l -> f a b = f' a b) ->
  forall a, foldM f l a = foldM f' l a.
Proof.
  induction l as [|b l IH]; intros Hext a; simpl; [done|].
  rewrite Hext by left. destruct (f' a b) as [e|a1]; simpl; [done|].
  apply IH. intros a2 b2 Hb2. apply Hext. by right.
Qed.

End Exceptions.

(** ** Routes with negative or out-of-range entries *)

Section RouteEntries.
Context {V : Type} `{Scalar V}.
Implicit Types (d : matrix V) (x : list Z) (s : MOTSP.self V).

Lemma wrap_city_range (n : nat) (a : Z) :
  valid_index n a -> 0 <= wrap_city n a < Z.of_nat n.
Proof.
  unfold valid_index, wrap_city. intros Ha. destruct (Z.ltb_spec a 0); lia.
Qed.

Lemma axis_index_wrap (len : nat) (a : Z) :
  valid_index len a -> axis_index len a = inr (Z.to_nat (wrap_city len a)).
Proof.
  unfold valid_index, wrap_city. intros Ha.
  destruct (Z.ltb_spec a 0); unfold axis_index.
  - rewrite (proj2 (Z.leb_gt 0 a)) by lia. cbn [andb].
    by rewrite (proj2 (Z.leb_le (- Z.of_nat len) a)), (proj2 (Z.ltb_lt a 0)) by lia.
  - by rewrite (proj2 (Z.leb_le 0 a)), (proj2 (Z.ltb_lt a (Z.of_nat len))) by lia.
Qed.

Lemma axis_index_inl (len : nat) (a : Z) (e : exn) :
  axis_index len a = inl e -> e = IndexError.
Proof.
  unfold axis_index. repeat case_match; try done. by intros [= <-].
Qed.

Lemma getitem_inl {A} (l : list A) (i : nat) (e : exn) :
  getitem l i = inl e -> e = IndexError.
Proof. unfold getitem. case_match; [done|]. by intros [= <-]. Qed.

Lemma getitem2_inl d (a b : Z) (e : exn) :
  getitem2 d a b = inl e -> e = IndexError.
Proof.
  unfold getitem2.
  intros [Hi|(i & _ & [Hr|(row & _ & [Hj|(j & _ & Hv)]%bind_inl)]%bind_inl)]%bind_inl;
    eauto using axis_index_inl, getitem_inl.
Qed.

(** [d[a, b]] for two valid indices is the entry of the two cities they
    stand for. *)
Lemma getitem2_wrap n d (a b : Z) :
  square n d -> valid_index n a -> valid_index n b ->
  getitem2 d a b = getitem2 d (wrap_city n a) (wrap_city n b).
Proof.
  intros Hsq Ha Hb.
  destruct (getitem2_nonneg n d (wrap_city n a) (wrap_city n b) Hsq)
    as (v & Hv & ->); [by apply wrap_city_range..|].
  pose proof Hsq as [Hl _]. unfold getitem2.
  rewrite Hl, axis_index_wrap by done. cbn [bind].
  unfold entry in Hv.
  destruct (d !! Z.to_nat (wrap_city n a)) as [row|] eqn:Hrow; [|done].
  rewrite (proj2 (getitem_inr _ _ _) Hrow). cbn [bind].
  assert (length row = n) as ->.
  { destruct Hsq as [_ Hrows]. by eapply (Forall_lookup_1 _ _ _ _ Hrows). }
  rewrite axis_index_wrap by done. cbn [bind].
  by apply getitem_inr.
Qed.

Lemma nth_wrap (n : nat) x (k : nat) :
  (k < length x)%nat -> nth k (wrap_city n <$> x) 0 = wrap_city n (nth k x 0).
Proof.
  intros Hk. rewrite !nth_lookup, list_lookup_fmap.
  by destruct (lookup_lt_is_Some_2 x k Hk) as [a ->].
Qed.

(** [total_distance] reads a route as the route of the cities its entries
    stand for. *)
Lemma total_distance_wrap n s x i d :
  square n d -> MOTSP.distances s !! i = Some d -> Forall (valid_index n) x ->
  MOTSP.total_distance s x i = MOTSP.total_distance s (wrap_city n <$> x) i.
Proof.
  intros Hsq Hd Hx. unfold MOTSP.total_distance. rewrite length_fmap.
  apply foldM_ext. intros t k [Hk1 Hk2]%elem_of_seq.
  rewrite (getitem_nth x (k - 1) 0), (getitem_nth x k 0) by lia.
  rewrite (getitem_nth (wrap_city n <$> x) (k - 1) 0),
    (getitem_nth (wrap_city n <$> x) k 0) by (rewrite length_fmap; lia).
  cbn [bind]. rewrite (proj2 (getitem_inr _ _ _) Hd). cbn [bind].
  rewrite !nth_wrap by lia.
  rewrite (getitem2_wrap n d (nth (k - 1) x 0) (nth k x 0)); [done|done|..].
  - apply (route_at_range (valid_index n)); [done|lia].
  - apply (route_at_range (valid_index n)); [done|lia].
Qed.

(** [total_distance] raises nothing but [IndexError]. *)
Lemma total_distance_inl s x i (e : exn) :
  MOTSP.total_distance s x i = inl e -> e = IndexError.
Proof.
  unfold MOTSP.total_distance. intros Hloop.
  eapply (foldM_inl (fun e => e = IndexError)); [|exact Hloop].
  clear e Hloop. intros t k e.
  intros [Ha|(a & _ & [Hb|(b & _ & [Hm|(m & _ & [Hv|(v & _ & Hr)]%bind_inl)]%bind_inl)]%bind_inl)]%bind_inl;
    eauto using getitem_inl, getitem2_inl.
  done.
Qed.

(** If [total_distance] returns on a route of two entries or more, every
    entry is a valid index. *)
Lemma total_distance_inr_valid n s x i d t :
  square n d -> MOTSP.distances s !! i = Some d -> (2 <= length x)%nat ->
  MOTSP.total_distance s x i = inr t -> Forall (valid_index n) x.
Proof.
  intros Hsq Hd Hlen Ht. unfold MOTSP.total_distance in Ht.
  assert (Hedge : forall k, (1 <= k < length x)%nat ->
            valid_index n (nth (k - 1) x 0) /\ valid_index n (nth k x 0)).
  { intros k Hk.
    destruct (foldM_inr_pass _ _ _ _ Ht k) as (t1 & t2 & Hpass).
    { apply elem_of_seq. lia. }
    apply bind_inr in Hpass as (a & Ha & Hpass).
    apply bind_inr in Hpass as (b & Hb & Hpass).
    apply bind_inr in Hpass as (m & Hm & Hpass).
    apply bind_inr in Hpass as (v & Hv & _).
    rewrite (getitem_nth x (k - 1) 0) in Ha by lia.
    rewrite (getitem_nth x k 0) in Hb by lia.
    apply getitem_inr in Hm. simplify_eq.
    by apply (getitem2_bound n d _ _ v). }
  apply Forall_lookup. intros j a Hj.
  pose proof (lookup_lt_Some _ _ _ Hj) as Hjlt.
  assert (a = nth j x 0) as -> by (by rewrite nth_lookup, Hj).
  destruct j as [|j].
  - by destruct (Hedge 1%nat) as [H0 _]; [lia|].
  - by destruct (Hedge (S j)) as [_ H1]; [lia|].
Qed.

(** On a matrix of the instance, [total_distance] returns exactly for the
    routes that are too short to have an edge and for those whose entries
    are all valid indices. *)
Lemma total_distance_inr_iff n s x i d :
  square n d -> MOTSP.distances s !! i = Some d ->
  (exists t, MOTSP.total_distance s x i = inr t)
  <-> (length x <= 1)%nat \/ Forall (valid_index n) x.
Proof.
  intros Hsq Hd. split.
  - intros [t Ht]. destruct (decide (length x <= 1)%nat); [by left|right].
    apply (total_distance_inr_valid n s x i d t); [done..|lia|done].
  - intros [Hlen|Hx].
    + exists vzero. unfold MOTSP.total_distance.
      by replace (length x - 1)%nat with 0%nat by lia.
    + by apply (total_distance_returns n s x i d).
Qed.

(** X1: on a route whose entries are all valid indices, negative ones
    included, [total_distance] returns the open-path cost of the route of the
    cities the entries stand for, an entry [a < 0] standing for city
    [a + N]. *)
Theorem negative_entries_count_from_the_end n s x i d :
  square n d -> MOTSP.distances s !! i = Some d -> Forall (valid_index n) x ->
  MOTSP.total_distance s x i = inr (open_path_cost d (wrap_city n <$> x)).
Proof.
  intros Hsq Hd Hx. rewrite (total_distance_wrap n s x i d) by done.
  apply (total_distance_open_path n); [done..|].
  apply Forall_fmap. eapply Forall_impl; [exact Hx|].
  intros a Ha. by apply wrap_city_range.
Qed.

(** X2: on a matrix of the instance, [total_distance] returns exactly when
    the route has at most one entry or all its entries are valid indices, and
    the only exception it raises is [IndexError]. *)
Theorem total_distance_raises_on_invalid_entries n s x i d :
  square n d -> MOTSP.distances s !! i = Some d ->
  ((exists t, MOTSP.total_distance s x i = inr t)
   <-> (length x <= 1)%nat \/ Forall (valid_index n) x) /\
  (forall e, MOTSP.total_distance s x i = inl e -> e = IndexError).
Proof.
  intros Hsq Hd. split.
  - by apply (total_distance_inr_iff n s x i d).
  - intros e. apply total_distance_inl.
Qed.

End RouteEntries.

(** ** When [_evaluate] returns and what it raises *)

Section EvaluateErrors.
Context {V : Type} `{Scalar V}.
Implicit Types (d : matrix V) (x : list Z) (s : MOTSP.self V).
Implicit Types (o : gmap string (MOTSP.ndarray V)).

Lemma constraint_inl s x (e : exn) :
  MOTSP.constraint s x = inl e -> e = ValueError.
Proof.
  unfold MOTSP.constraint, not_equal.
  intros [Hne|(ne & _ & [=])]%bind_inl.
  repeat case_match; try done; by injection Hne as <-.
Qed.

(** Without a matrix there is no objective to stack. *)
Lemma evaluate_no_objective (f : MOTSP.frame V) :
  MOTSP.distances (MOTSP.this f) = [] -> MOTSP._evaluate f = inl ValueError.
Proof.
  intros Hd. unfold MOTSP._evaluate. rewrite Hd. cbn [length seq replicate foldM bind ret].
  destruct (MOTSP.constraint _ _) as [e|c] eqn:Hc; cbn [bind]; [|done].
  by apply constraint_inl in Hc as ->.
Qed.

(** What the first objective raises, the evaluation raises. *)
Lemma evaluate_first_objective_raises s x o d0 ds (e : exn) :
  MOTSP.distances s = d0 :: ds -> MOTSP.total_distance s x 0 = inl e ->
  MOTSP._evaluate {| MOTSP.this := s; MOTSP.x := x; MOTSP.out := o |} = inl e.
Proof.
  intros Hd He. unfold MOTSP._evaluate. cbn [MOTSP.this MOTSP.x MOTSP.out].
  rewrite Hd. cbn [length seq replicate foldM]. by rewrite He.
Qed.

Lemma evaluate_inr_iff (n : nat) s x o :
  well_formed n s -> length x = n ->
  (exists f', MOTSP._evaluate {| MOTSP.this := s; MOTSP.x := x; MOTSP.out := o |} = inr f')
  <-> MOTSP.distances s <> [] /\ ((n <= 1)%nat \/ Forall (valid_index n) x).
Proof.
  intros [Hn Hsq] Hlen. subst n. split.
  - intros (f' & (fits & c & Hfits & _ & Hne & _)%evaluate_inr). cbn in *.
    pose proof (objectives_of_length _ _ _ Hfits) as Hl.
    destruct fits as [|t fits]; [done|].
    destruct (MOTSP.distances s) as [|d0 ds] eqn:Hd; [done|]. split; [done|].
    apply (total_distance_inr_iff (length x) s x 0 d0).
    + by apply Forall_cons_1 in Hsq as [? _].
    + by rewrite Hd.
    + exists t. by apply (objectives_of_lookup s x (t :: fits) 0 t).
  - intros [Hne Hx].
    destruct (objectives_of_returns s x) as [fits Hfits].
    { intros i Hi. destruct (lookup_lt_is_Some_2 _ i Hi) as [d Hd].
      apply (total_distance_inr_iff (length x) s x i d); [|done..].
      by eapply (Forall_lookup_1 _ _ _ _ Hsq). }
    eexists. apply evaluate_inr. exists fits. eexists. cbn.
    split; [done|]. split; [by apply (constraint_returns (length x))|]. split; [|done].
    apply objectives_of_length in Hfits. destruct fits, (MOTSP.distances s); done.
Qed.

(** X3: for a route of length [n_cities] against an instance with
    matrices of that size, [_evaluate] returns exactly when there is at least
    one matrix and the route has at most one entry or only valid indices as
    entries; with a matrix and an invalid entry it raises [IndexError]. *)
Theorem evaluate_raises_on_invalid_entries (n : nat) s x o :
  well_formed n s -> length x = n ->
  ((exists f', MOTSP._evaluate {| MOTSP.this := s; MOTSP.x := x; MOTSP.out := o |} = inr f')
   <-> MOTSP.distances s <> [] /\ ((n <= 1)%nat \/ Forall (valid_index n) x)) /\
  (MOTSP.distances s <> [] -> ~ ((n <= 1)%nat \/ Forall (valid_index n) x) ->
   MOTSP._evaluate {| MOTSP.this := s; MOTSP.x := x; MOTSP.out := o |} = inl IndexError).
Proof.
  intros Hwf Hlen. split; [by apply evaluate_inr_iff|].
  intros Hne Hbad. destruct (MOTSP.distances s) as [|d0 ds] eqn:Hd; [done|].
  apply (evaluate_first_objective_raises s x o d0 ds); [done|].
  destruct (MOTSP.total_distance s x 0) as [e|t] eqn:Ht.
  - by apply total_distance_inl in Ht as ->.
  - exfalso. apply Hbad. subst n.
    apply (total_distance_inr_iff (length x) s x 0 d0).
    + destruct Hwf as [_ Hsq]. rewrite Hd in Hsq. by apply Forall_cons_1 in Hsq as [? _].
    + by rewrite Hd.
    + eauto.
Qed.

(** X4: an instance constructed with no objective, [n_obj <= 0], is
    constructed without complaint and then raises [ValueError] on every
    route it is asked to evaluate. *)
Theorem no_objective_never_evaluates (n_cities n_obj : Z) (g : rng V) s g' x o :
  n_obj <= 0 -> MOTSP.__init__ n_cities n_obj g = inr (s, g') ->
  MOTSP._evaluate {| MOTSP.this := s; MOTSP.x := x; MOTSP.out := o |} = inl ValueError.
Proof.
  intros Hm (_ & _ & Hd)%init_inr. apply evaluate_no_objective. cbn.
  rewrite Hd. by replace (Z.to_nat n_obj) with 0%nat by lia.
Qed.

(** Sorting forgets the order of the route. *)
Lemma np_sort_perm x y : x ≡ₚ y -> np_sort x = np_sort y.
Proof.
  intros Hperm. unfold np_sort. apply (StronglySorted_unique Z.le).
  - apply StronglySorted_merge_sort; apply _.
  - apply StronglySorted_merge_sort; apply _.
  - by rewrite !merge_sort_Permutation.
Qed.

(** X5: the constraint value depends on which entries a route has and how
    often, not on their order: two routes that are rearrangements of one
    another get the same value, against any instance. *)
Theorem constraint_ignores_order s x y o o' (f1 f2 : MOTSP.frame V) :
  x ≡ₚ y ->
  MOTSP._evaluate {| MOTSP.this := s; MOTSP.x := x; MOTSP.out := o |} = inr f1 ->
  MOTSP._evaluate {| MOTSP.this := s; MOTSP.x := y; MOTSP.out := o' |} = inr f2 ->
  MOTSP.out f1 !! "G" = MOTSP.out f2 !! "G".
Proof.
  intros Hperm (fits1 & c1 & _ & Hc1 & _ & ->)%evaluate_inr
         (fits2 & c2 & _ & Hc2 & _ & ->)%evaluate_inr.
  cbn in *. rewrite !lookup_insert_eq. do 3 f_equal.
  unfold MOTSP.constraint in Hc1, Hc2.
  rewrite (np_sort_perm x y Hperm) in Hc1. congruence.
Qed.

Lemma np_sum_le_length (bs : list bool) : np_sum bs <= Z.of_nat (length bs).
Proof.
  unfold np_sum. apply inj_le. induction bs as [|[] bs IH]; simpl; lia.
Qed.

(** X6: for a route of length [n_cities], the constraint value that
    [_evaluate] stores lies between [- n_cities] and 0. *)
Theorem constraint_bounded_by_city_count (n : nat) s x o (f' : MOTSP.frame V) :
  MOTSP.n_cities s = Z.of_nat n -> length x = n ->
  MOTSP._evaluate {| MOTSP.this := s; MOTSP.x := x; MOTSP.out := o |} = inr f' ->
  exists c, MOTSP.out f' !! "G" = Some (MOTSP.Int1 [c]) /\ - Z.of_nat n <= c <= 0.
Proof.
  intros Hn Hlen (fits & c & _ & Hc & _ & ->)%evaluate_inr. cbn in *.
  exists c. rewrite lookup_insert_eq. split; [done|].
  rewrite (constraint_returns n) in Hc by done. injection Hc as <-.
  match goal with |- context [np_sum ?bs] =>
    pose proof (np_sum_nonneg bs); pose proof (np_sum_le_length bs) as Hle;
    assert (length bs = n) as Hbs
  end.
  { rewrite length_zip_with, arange_length, np_sort_length. lia. }
  rewrite Hbs in Hle. lia.
Qed.

End EvaluateErrors.

(** ** The draws the constructor takes *)

Section Draws.
Context {V : Type} `{Scalar V}.
Implicit Types (d : matrix V) (g : rng V) (s : MOTSP.self V).

(** The loop leaves the generator [count] blocks of [n * n] draws on. *)
Lemma draw_distances_rng n count g (k : nat) :
  (MOTSP.draw_distances n count g).2 k = g (count * (n * n) + k)%nat.
Proof.
  revert g. induction count as [|count IH]; intros g; [done|].
  rewrite draw_distances_S. cbn [snd]. rewrite IH. unfold rand. cbn [snd].
  f_equal. lia.
Qed.

Lemma drawn_entry_shift n g (b i j : nat) :
  drawn_entry n (rand n g).2 b i j = drawn_entry n g (S b) i j.
Proof.
  unfold drawn_entry, rand. cbn [snd].
  repeat case_decide; try done; do 2 f_equal; lia.
Qed.

(** The entries of the matrix of objective [b]. *)
Lemma draw_distances_entry n count g (b i j : nat) :
  (b < count)%nat -> (i < n)%nat -> (j < n)%nat ->
  exists d, (MOTSP.draw_distances n count g).1 !! b = Some d /\
            entry d i j = Some (drawn_entry n g b i j).
Proof.
  intros Hb Hi Hj. revert g b Hb.
  induction count as [|count IH]; intros g b Hb; [lia|].
  rewrite draw_distances_S. cbn [fst]. destruct b as [|b].
  - eexists. split; [done|].
    rewrite (symmetric_matrix_entry n _ i j (g (i * n + j)%nat) (g (j * n + i)%nat));
      [done|apply rand_square|done|done|by apply rand_entry..].
  - destruct (IH (rand n g).2 b) as (d & Hd & Hent); [lia|].
    exists d. split; [done|]. by rewrite Hent, drawn_entry_shift.
Qed.

(** Drawing [a + b] matrices is drawing [a] and then [b] more. *)
Lemma draw_distances_add n (a b : nat) g :
  MOTSP.draw_distances n (a + b) g =
  ((MOTSP.draw_distances n a g).1
     ++ (MOTSP.draw_distances n b (MOTSP.draw_distances n a g).2).1,
   (MOTSP.draw_distances n b (MOTSP.draw_distances n a g).2).2).
Proof.
  revert g. induction a as [|a IH]; intros g.
  - cbn. by destruct (MOTSP.draw_distances n b g).
  - replace (S a + b)%nat with (S (a + b)) by lia.
    rewrite !draw_distances_S, IH. done.
Qed.

(** The generator the constructor hands back. *)
Lemma init_rng (n_cities n_obj : Z) g s g' :
  MOTSP.__init__ n_cities n_obj g = inr (s, g') ->
  g' = (MOTSP.draw_distances (Z.to_nat n_cities) (Z.to_nat n_obj) g).2.
Proof.
  unfold MOTSP.__init__. destruct (n_cities <? 0); [done|].
  destruct (MOTSP.draw_distances _ _ g) as [ds g2]. by intros [= _ <-].
Qed.

(** X7: constructing an instance takes exactly [n_obj * n_cities^2] draws
    from the process-wide generator: the generator it leaves behind yields
    what the original one would have yielded after that many draws. *)
Theorem init_consumes_draws (n_cities n_obj : Z) g s g' :
  MOTSP.__init__ n_cities n_obj g = inr (s, g') ->
  forall k, g' k = g (Z.to_nat n_obj * (Z.to_nat n_cities * Z.to_nat n_cities) + k)%nat.
Proof.
  intros ->%init_rng k. apply draw_distances_rng.
Qed.

(** X8: in the matrix of objective [b], the entry of two distinct cities is
    the draw that block [b] holds at the lower-triangular position of the
    pair, row the larger and column the smaller city, added to zero; the
    diagonal is zero.  The draws of the diagonal and above are not used. *)
Theorem init_entries_from_lower_triangle (n_cities n_obj : Z) g s g' (b i j : nat) :
  MOTSP.__init__ n_cities n_obj g = inr (s, g') ->
  (b < Z.to_nat n_obj)%nat -> (i < Z.to_nat n_cities)%nat -> (j < Z.to_nat n_cities)%nat ->
  exists d, MOTSP.distances s !! b = Some d /\
            entry d i j = Some (drawn_entry (Z.to_nat n_cities) g b i j).
Proof.
  intros (_ & _ & ->)%init_inr Hb Hi Hj. by apply draw_distances_entry.
Qed.

(** X9: asking for more objectives keeps the matrices of the first ones:
    from one generator state, the matrices of an instance with [n_obj']
    objectives are those of the instance with [n_obj <= n_obj'] objectives,
    followed by the ones drawn from where that construction left the
    generator. *)
Theorem more_objectives_keep_matrices (n_cities n_obj n_obj' : Z) g s g1 :
  MOTSP.__init__ n_cities n_obj g = inr (s, g1) -> n_obj <= n_obj' ->
  exists s' g2,
    MOTSP.__init__ n_cities n_obj' g = inr (s', g2) /\
    MOTSP.distances s' =
    MOTSP.distances s
      ++ (MOTSP.draw_distances (Z.to_nat n_cities)
            (Z.to_nat n_obj' - Z.to_nat n_obj) g1).1.
Proof.
  intros Hinit Hle. pose proof Hinit as (Hn & _ & Hd)%init_inr.
  pose proof (init_rng _ _ _ _ _ Hinit) as Hg1.
  destruct (init_returns n_cities n_obj' g Hn) as (s' & g2 & Hinit').
  exists s', g2. split; [done|].
  apply init_inr in Hinit' as (_ & _ & ->). rewrite Hd, Hg1.
  replace (Z.to_nat n_obj') with (Z.to_nat n_obj + (Z.to_nat n_obj' - Z.to_nat n_obj))%nat
    at 1 by lia.
  by rewrite draw_distances_add.
Qed.

End Draws.

(** ** The further properties on concrete instances *)

(** The route [-1, 0, -2] over three cities is read as 2 - 0 - 1. *)
Lemma negative_entries_count_from_the_end_witness :
  MOTSP.total_distance three_cities [-1; 0; -2] 1
  = inr (open_path_cost [[0; 13; 16]; [13; 0; 17]; [16; 17; 0]]
                        (wrap_city 3 <$> [-1; 0; -2])).
Proof.
  apply (negative_entries_count_from_the_end 3 three_cities [-1; 0; -2] 1).
  - split; [reflexivity|]. repeat constructor.
  - reflexivity.
  - repeat constructor; unfold valid_index; lia.
Defined.

(** The route [0, 5, 1] over three cities. *)
Lemma total_distance_raises_on_invalid_entries_witness :
  ((exists t, MOTSP.total_distance three_cities [0; 5; 1] 0 = inr t)
   <-> (length [0; 5; 1] <= 1)%nat \/ Forall (valid_index 3) [0; 5; 1]) /\
  (forall e, MOTSP.total_distance three_cities [0; 5; 1] 0 = inl e -> e = IndexError).
Proof.
  apply (total_distance_raises_on_invalid_entries 3 three_cities [0; 5; 1] 0
           [[0; 4; 7]; [4; 0; 8]; [7; 8; 0]]).
  - split; [reflexivity|]. repeat constructor.
  - reflexivity.
Defined.

(** The route [0, 3, 1] over three cities: 3 is no index of a 3 x 3
    array. *)
Lemma evaluate_raises_on_invalid_entries_witness :
  MOTSP._evaluate {| MOTSP.this := three_cities; MOTSP.x := [0; 3; 1]; MOTSP.out := ∅ |}
  = inl IndexError.
Proof.
  destruct (evaluate_raises_on_invalid_entries 3 three_cities [0; 3; 1] ∅)
    as [_ Hraise].
  { split; [reflexivity|]. repeat constructor. }
  { reflexivity. }
  apply Hraise.
  - discriminate.
  - intros [Hlen|Hvalid]; [lia|].
    apply Forall_cons_1 in Hvalid as [_ Hvalid].
    apply Forall_cons_1 in Hvalid as [Hthree _].
    unfold valid_index in Hthree. lia.
Defined.

(** Three cities and no objective. *)
Lemma no_objective_never_evaluates_witness :
  MOTSP._evaluate
    {| MOTSP.this := {| MOTSP.n_cities := 3; MOTSP.distances := [];
                        MOTSP.n_var := 3; MOTSP.n_obj := 0; MOTSP.n_constr := 1;
                        MOTSP.xl := [0; 0; 0]; MOTSP.xu := [2; 2; 2] |};
       MOTSP.x := [0; 1; 2]; MOTSP.out := ∅ |}
  = inl ValueError.
Proof.
  apply (no_objective_never_evaluates 3 0 counting_rng _ counting_rng).
  - lia.
  - reflexivity.
Defined.

(** The malformed routes [0, 0, 1] and [1, 0, 0] over three cities. *)
Lemma constraint_ignores_order_witness :
  let f1 := {| MOTSP.this := three_cities; MOTSP.x := [0; 0; 1];
               MOTSP.out := <["G" := MOTSP.Int1 [-2]]>
                              (<["F" := MOTSP.Float2 [[4; 13]]]> ∅) |} in
  let f2 := {| MOTSP.this := three_cities; MOTSP.x := [1; 0; 0];
               MOTSP.out := <["G" := MOTSP.Int1 [-2]]>
                              (<["F" := MOTSP.Float2 [[4; 13]]]> ∅) |} in
  MOTSP.out f1 !! "G" = MOTSP.out f2 !! "G".
Proof.
  intros f1 f2.
  apply (constraint_ignores_order three_cities [0; 0; 1] [1; 0; 0] ∅ ∅ f1 f2).
  - symmetry. apply (Permutation_cons_append [0; 0] 1).
  - reflexivity.
  - reflexivity.
Defined.

(** The malformed route [0, 0, 1] over three cities. *)
Lemma constraint_bounded_by_city_count_witness :
  let f' := {| MOTSP.this := three_cities; MOTSP.x := [0; 0; 1];
               MOTSP.out := <["G" := MOTSP.Int1 [-2]]>
                              (<["F" := MOTSP.Float2 [[4; 13]]]> ∅) |} in
  exists c, MOTSP.out f' !! "G" = Some (MOTSP.Int1 [c]) /\ - Z.of_nat 3 <= c <= 0.
Proof.
  intros f'.
  apply (constraint_bounded_by_city_count 3 three_cities [0; 0; 1] ∅ f').
  - reflexivity.
  - reflexivity.
  - reflexivity.
Defined.

(** Three cities and two objectives take 18 draws: the next draw is the
    nineteenth. *)
Lemma init_consumes_draws_witness :
  counting_rng (18 + 0)%nat = counting_rng (Z.to_nat 2 * (Z.to_nat 3 * Z.to_nat 3) + 0)%nat.
Proof.
  assert (Hinit : MOTSP.__init__ 3 2 counting_rng
                  = inr (three_cities, fun k => counting_rng (18 + k)%nat))
    by reflexivity.
  exact (init_consumes_draws 3 2 counting_rng three_cities _ Hinit 0%nat).
Defined.

(** The distance between cities 0 and 2 under the second objective is the
    draw at row 2, column 0 of the second block. *)
Lemma init_entries_from_lower_triangle_witness :
  exists d, MOTSP.distances three_cities !! 1%nat = Some d /\
            entry d 0 2 = Some (drawn_entry 3 counting_rng 1 0 2).
Proof.
  apply (init_entries_from_lower_triangle 3 2 counting_rng three_cities
           (fun k => counting_rng (18 + k)%nat) 1 0 2).
  - reflexivity.
  - lia.
  - lia.
  - lia.
Defined.

(** One objective over three cities, then two. *)
Lemma more_objectives_keep_matrices_witness :
  let s1 := {| MOTSP.n_cities := 3;
               MOTSP.distances := [[[0; 4; 7]; [4; 0; 8]; [7; 8; 0]]];
               MOTSP.n_var := 3; MOTSP.n_obj := 1; MOTSP.n_constr := 1;
               MOTSP.xl := [0; 0; 0]; MOTSP.xu := [2; 2; 2] |} in
  let g1 : rng Z := fun k => counting_rng (9 + k)%nat in
  exists s' g2,
    MOTSP.__init__ 3 2 counting_rng = inr (s', g2) /\
    MOTSP.distances s' =
    MOTSP.distances s1 ++ (MOTSP.draw_distances 3 (Z.to_nat 2 - Z.to_nat 1) g1).1.
Proof.
  intros s1 g1.
  apply (more_objectives_keep_matrices 3 1 2 counting_rng s1 g1).
  - reflexivity.
  - lia.
Defined.
